(** * Echoes of the Forgotten: the turn-update merge protocol

    A shallow embedding of the game core of the repository:
    - [types.ts]: the data model ([LocationId], [GamePhase], [Clue],
      [NarrativeEntry], [PuzzleState], [GameState]);
    - [services/geminiService.ts]: [processResponse], [sendPlayerAction],
      [initializeGame] and the module variable [chatSession];
    - [App.tsx]: [handleApiResponse], [handleAction] and the mount effect
      [start], over the React state of the [App] component.

    Conventions.
    - A JavaScript property that may be missing is an [option]; [None] is
      [undefined].  The truthiness tests of the source are written out
      ([truthy_string], [truthy_bool]).
    - The clock is an input: every function that reads it takes the
      readings it makes as arguments, one per call site ([Date.now()] as
      an integer, [new Date().toISOString()] as the string it returns).
    - A thrown exception is the [Throw] case of [Completion]; React state
      written before the throw stays written. *)

From stdpp Require Import base decidable option list strings pretty gmap.

Local Open Scope Z_scope.
Local Open Scope string_scope.

(** ** types.ts *)

Inductive LocationId :=
  Station | TownSquare | OldLibrary | Observatory | Forest | MayasHouse.

(** The string each member of the enum stands for at run time. *)
Definition LocationId_value (l : LocationId) : string :=
  match l with
  | Station => "station"
  | TownSquare => "town_square"
  | OldLibrary => "old_library"
  | Observatory => "observatory"
  | Forest => "forest"
  | MayasHouse => "mayas_house"
  end.

(** [Object.values(LocationId)], in declaration order. *)
Definition LocationId_values : list string :=
  LocationId_value <$>
    [Station; TownSquare; OldLibrary; Observatory; Forest; MayasHouse].

Inductive GamePhase :=
  | PhaseStart | PhasePlaying | PhasePuzzle | PhaseMemory | PhaseEnding.

Module Clue.
Record t := mk {
  id : string;
  name : string;
  description : string;
  discoveredAt : string;
}.
End Clue.

Inductive EntryType := description | dialogue | action | memory.

Module NarrativeEntry.
Record t := mk {
  id : string;
  speaker : string;
  text : string;
  type : EntryType;
  timestamp : Z;
}.
End NarrativeEntry.

Inductive PuzzleType := code | logic.

Module PuzzleState.
Record t := mk {
  id : string;
  description : string;
  type : PuzzleType;
  solved : bool;
}.
End PuzzleState.

(** [currentLocation] is declared [LocationId], but the value stored in it
    comes from a response typed [any]; at run time it is a string.  [trust]
    is an object literal that is only read (serialised into the prompt),
    so it is kept as its (key, value) entries in insertion order. *)
Record GameState := mkGameState {
  currentLocation : string;
  inventory : list string;
  clues : list Clue.t;
  narrativeHistory : list NarrativeEntry.t;
  phase : GamePhase;
  trust : list (string * Z);
  puzzleActive : option PuzzleState.t;
}.

(** ** JavaScript values used by the core *)

(** [ToBoolean] on an optional string: [undefined] and [""] are falsy. *)
Definition truthy_string (v : option string) : option string :=
  match v with
  | Some s => if decide (s = "") then None else Some s
  | None => None
  end.

(** [ToBoolean] on an optional boolean. *)
Definition truthy_bool (v : option bool) : bool :=
  match v with
  | Some b => b
  | None => false
  end.

(** Optional chaining: [o?.f] is [undefined] when [o] is. *)
Definition chain {A B : Type} (o : option A) (f : A → option B) : option B :=
  match o with
  | Some a => f a
  | None => None
  end.
Infix "?." := chain (at level 50, left associativity).

(** [Number.prototype.toString] on an integer: its decimal numeral. *)
Definition Number_toString (n : Z) : string := pretty n.

(** [JSON.stringify] on an object whose property values are integers,
    given by its entries in enumeration order: [QuoteJSONString] escapes
    the quote, the backslash and the control characters of each key. *)
Definition dquote : string := String (Ascii.ascii_of_nat 34) "".
Definition backslash : string := String (Ascii.ascii_of_nat 92) "".

Definition hexDigit (n : nat) : string :=
  match String.get n "0123456789abcdef" with
  | Some c => String c ""
  | None => ""
  end.

Definition QuoteJSONChar (c : Ascii.ascii) : string :=
  let n := Ascii.nat_of_ascii c in
  if decide (n = 8)%nat then backslash +:+ "b"
  else if decide (n = 9)%nat then backslash +:+ "t"
  else if decide (n = 10)%nat then backslash +:+ "n"
  else if decide (n = 12)%nat then backslash +:+ "f"
  else if decide (n = 13)%nat then backslash +:+ "r"
  else if decide (n = 34)%nat then backslash +:+ dquote
  else if decide (n = 92)%nat then backslash +:+ backslash
  else if decide (n < 32)%nat
       then backslash +:+ "u00" +:+ hexDigit (n / 16) +:+ hexDigit (n mod 16)
  else String c "".

Fixpoint QuoteJSONBody (s : string) : string :=
  match s with
  | EmptyString => ""
  | String c rest => QuoteJSONChar c +:+ QuoteJSONBody rest
  end.

Definition QuoteJSONString (s : string) : string :=
  dquote +:+ QuoteJSONBody s +:+ dquote.

Definition JSON_stringify (o : list (string * Z)) : string :=
  "{"
  +:+ String.concat ","
        ((λ kv, QuoteJSONString kv.1 +:+ ":" +:+ Number_toString kv.2) <$> o)
  +:+ "}".

(** A [Set] of strings keeps its members in insertion order; adding a
    member that is already there changes nothing. *)
Module JSSet.
Definition add (s : list string) (x : string) : list string :=
  if decide (x ∈ s) then s else s ++ [x].

(** [new Set(iterable)] adds the elements one by one. *)
Definition of_list (l : list string) : list string := foldl add [] l.
End JSSet.

(** How a JavaScript computation ends. *)
Inductive JsError := TypeError (message : string).

(** The error of reading [property] on [undefined]. *)
Definition cannotRead (property : string) : JsError :=
  TypeError
    ("Cannot read properties of undefined (reading '" +:+ property +:+ "')").

Inductive Completion (A : Type) :=
  | Normal (a : A)
  | Throw (e : JsError).
Arguments Normal {A} a.
Arguments Throw {A} e.

(** How a promise settles. *)
Inductive Settled (A : Type) :=
  | Fulfilled (a : A)
  | Rejected.
Arguments Fulfilled {A} a.
Arguments Rejected {A}.

(** ** services/geminiService.ts: the shapes involved *)

(** The arguments of an [updateGameState] call, as [updateGameStateTool]
    declares them: [narrative] is required, the rest is optional, and a
    clue carries both its fields. *)
Module ClueAdded.
Record t := mk { name : string; description : string }.
End ClueAdded.

Module Args.
Record t := mk {
  narrative : string;
  newLocation : option string;
  itemAdded : option string;
  itemRemoved : option string;
  clueAdded : option ClueAdded.t;
  memoryTriggered : option bool;
}.
End Args.

(** The reply of [chatSession.sendMessage], reduced to the properties
    [processResponse] reads.  Each of them is optional in the reply. *)
Module GenAI.
Record FunctionCall := mkFunctionCall {
  id : option string;
  args : option Args.t;
  name : option string;
}.
Record Part := mkPart {
  functionCall : option FunctionCall;
  text : option string;
}.
Record Content := mkContent { parts : option (list Part) }.
Record Candidate := mkCandidate { content : option Content }.
Record GenerateContentResponse := mkResponse {
  candidates : option (list Candidate);
}.
End GenAI.

(** The [updates] object of a response. *)
Record Updates := mkUpdates {
  newLocation : option string;
  itemAdded : option string;
  itemRemoved : option string;
  clueAdded : option ClueAdded.t;
  memoryTriggered : option bool;
}.

(** [{}] *)
Definition noUpdates : Updates := mkUpdates None None None None None.

(** What [processResponse], [sendPlayerAction] and [initializeGame]
    return.  The failure objects have no [updates] property; [error] is
    only ever absent or [true]. *)
Record ApiResponse := mkApiResponse {
  narrative : string;
  updates : option Updates;
  error : bool;
  toolCallId : option string;
  functionName : option string;
}.

Definition has_functionCall (p : GenAI.Part) : bool :=
  bool_decide (is_Some (GenAI.functionCall p)).

Definition has_text (p : GenAI.Part) : bool :=
  bool_decide (is_Some (truthy_string (GenAI.text p))).

Definition processResponse (result : GenAI.GenerateContentResponse)
  : Completion ApiResponse :=
  let candidate : option GenAI.Candidate :=
    GenAI.candidates result ?. head in
  let parts : option (list GenAI.Part) :=
    candidate ?. GenAI.content ?. GenAI.parts in
  let part : option GenAI.Part := parts ?. List.find has_functionCall in
  match part ?. GenAI.functionCall with
  | Some functionCall =>
      match GenAI.args functionCall with
      | None =>
          Throw (cannotRead "narrative")
      | Some args =>
          Normal {|
            narrative := Args.narrative args;
            updates := Some {|
              newLocation := Args.newLocation args;
              itemAdded := Args.itemAdded args;
              itemRemoved := Args.itemRemoved args;
              clueAdded := Args.clueAdded args;
              memoryTriggered := Args.memoryTriggered args;
            |};
            error := false;
            toolCallId := GenAI.id functionCall;
            functionName := GenAI.name functionCall;
          |}
      end
  | None =>
      let textPart : option GenAI.Part := parts ?. List.find has_text in
      match textPart ?. GenAI.text with
      | Some text =>
          Normal (mkApiResponse text (Some noUpdates) false None None)
      | None =>
          Normal (mkApiResponse "..." (Some noUpdates) false None None)
      end
  end.

(** ** The state the program runs in *)

(** The session object behind [chatSession]: the messages handed to its
    [sendMessage], oldest first.  The service itself is the environment. *)
Record ChatSession := mkChatSession { sent : list string }.

(** Which [async] function is suspended at its [await]. *)
Inductive Caller := FromStart | FromHandleAction.

(** The promise a suspended call waits for: one that [sendPlayerAction]
    or [initializeGame] has already resolved, or one that waits for the
    reply of [chatSession.sendMessage]. *)
Inductive Promise :=
  | Resolved (response : ApiResponse)
  | OnService.

Record Suspended := mkSuspended { caller : Caller; promise : Promise }.

Record World := mkWorld {
  (** the [useState] cells of [App] *)
  gameState : GameState;
  input : string;
  isLoading : bool;
  isNotebookOpen : bool;
  showMemoryOverlay : bool;
  (** [let chatSession] of the service module *)
  chatSession : option ChatSession;
  (** delays of the [setTimeout] callbacks that have not run yet *)
  timeouts : list Z;
  (** calls suspended at an [await], oldest first *)
  suspended : list Suspended;
}.

Definition setGameState (f : GameState → GameState) (w : World) : World :=
  mkWorld (f (gameState w)) (input w) (isLoading w) (isNotebookOpen w)
    (showMemoryOverlay w) (chatSession w) (timeouts w) (suspended w).

Definition setInput (v : string) (w : World) : World :=
  mkWorld (gameState w) v (isLoading w) (isNotebookOpen w)
    (showMemoryOverlay w) (chatSession w) (timeouts w) (suspended w).

Definition setIsLoading (v : bool) (w : World) : World :=
  mkWorld (gameState w) (input w) v (isNotebookOpen w)
    (showMemoryOverlay w) (chatSession w) (timeouts w) (suspended w).

Definition setIsNotebookOpen (v : bool) (w : World) : World :=
  mkWorld (gameState w) (input w) (isLoading w) v
    (showMemoryOverlay w) (chatSession w) (timeouts w) (suspended w).

Definition setShowMemoryOverlay (v : bool) (w : World) : World :=
  mkWorld (gameState w) (input w) (isLoading w) (isNotebookOpen w)
    v (chatSession w) (timeouts w) (suspended w).

Definition set_chatSession (v : option ChatSession) (w : World) : World :=
  mkWorld (gameState w) (input w) (isLoading w) (isNotebookOpen w)
    (showMemoryOverlay w) v (timeouts w) (suspended w).

Definition setTimeout (delay : Z) (w : World) : World :=
  mkWorld (gameState w) (input w) (isLoading w) (isNotebookOpen w)
    (showMemoryOverlay w) (chatSession w) (timeouts w ++ [delay]) (suspended w).

Definition set_timeouts (v : list Z) (w : World) : World :=
  mkWorld (gameState w) (input w) (isLoading w) (isNotebookOpen w)
    (showMemoryOverlay w) (chatSession w) v (suspended w).

Definition set_suspended (v : list Suspended) (w : World) : World :=
  mkWorld (gameState w) (input w) (isLoading w) (isNotebookOpen w)
    (showMemoryOverlay w) (chatSession w) (timeouts w) v.

(** Field updates of the copy [{ ...prev }]. *)
Definition with_currentLocation (v : string) (s : GameState) : GameState :=
  mkGameState v (inventory s) (clues s) (narrativeHistory s) (phase s)
    (trust s) (puzzleActive s).

Definition with_inventory (v : list string) (s : GameState) : GameState :=
  mkGameState (currentLocation s) v (clues s) (narrativeHistory s) (phase s)
    (trust s) (puzzleActive s).

Definition with_clues (v : list Clue.t) (s : GameState) : GameState :=
  mkGameState (currentLocation s) (inventory s) v (narrativeHistory s)
    (phase s) (trust s) (puzzleActive s).

Definition with_narrativeHistory (v : list NarrativeEntry.t) (s : GameState)
  : GameState :=
  mkGameState (currentLocation s) (inventory s) (clues s) v (phase s)
    (trust s) (puzzleActive s).

(** State the effectful functions run in: the world is threaded through,
    and a throw keeps the world as it was when it happened. *)
Definition Eff (A : Type) : Type := World → Completion A * World.

Definition ret {A : Type} (a : A) : Eff A := λ w, (Normal a, w).

Definition throw {A : Type} (e : JsError) : Eff A := λ w, (Throw e, w).

Definition bind {A B : Type} (m : Eff A) (k : A → Eff B) : Eff B :=
  λ w, match m w with
       | (Normal a, w') => k a w'
       | (Throw e, w') => (Throw e, w')
       end.

(** A statement that only writes state. *)
Definition exec (f : World → World) : Eff unit := λ w, (Normal (), f w).

Notation "'let*' x := m 'in' k" := (bind m (λ x, k))
  (at level 10, x name, m at level 100, k at level 200).
Notation "m ;; k" := (bind m (λ _, k))
  (at level 100, k at level 200, right associativity).

(** The clock readings of the two [Date.now()] in a [NarrativeEntry]
    literal, and of [Date.now()] and [new Date().toISOString()] in the
    [Clue] literal. *)
Record EntryClock := mkEntryClock { id_now : Z; timestamp_now : Z }.
Record ClueClock := mkClueClock { clue_id_now : Z; clue_date_iso : string }.

(** ** App.tsx *)

(** [useState<GameState>({...})] *)
Definition initialGameState : GameState := {|
  currentLocation := LocationId_value Station;
  inventory := [];
  clues := [];
  narrativeHistory := [];
  phase := PhaseStart;
  trust := [("Silas", 30); ("Evelyn", 50); ("Jonas", 10)];
  puzzleActive := None;
|}.

(** The component before its mount effect has run. *)
Definition initialWorld : World := {|
  gameState := initialGameState;
  input := "";
  isLoading := false;
  isNotebookOpen := false;
  showMemoryOverlay := false;
  chatSession := None;
  timeouts := [];
  suspended := [];
|}.

(** [newHistory] of [handleApiResponse]. *)
Definition newHistoryEntry (now : EntryClock) (narrative : string)
    (u : Updates) : NarrativeEntry.t := {|
  NarrativeEntry.id := Number_toString (id_now now);
  NarrativeEntry.speaker := "GM";
  NarrativeEntry.text := narrative;
  NarrativeEntry.type :=
    if truthy_bool (memoryTriggered u) then memory else description;
  NarrativeEntry.timestamp := timestamp_now now;
|}.

(** [newClue] of [handleApiResponse]. *)
Definition newClue (now : ClueClock) (c : ClueAdded.t) : Clue.t := {|
  Clue.id := Number_toString (clue_id_now now);
  Clue.name := ClueAdded.name c;
  Clue.description := ClueAdded.description c;
  Clue.discoveredAt := clue_date_iso now;
|}.

(** The function [handleApiResponse] passes to [setGameState], as far as
    it computes the next [GameState]: [prev => { ...; return newState }].
    Every right-hand side reads [prev], not [newState]. *)
Definition stateUpdater (newHistory : NarrativeEntry.t) (u : Updates)
    (now : ClueClock) (prev : GameState) : GameState :=
  let newState := prev in
  let newState :=
    with_narrativeHistory (narrativeHistory prev ++ [newHistory]) newState in
  let newState :=
    match truthy_string (newLocation u) with
    | Some l => with_currentLocation l newState
    | None => newState
    end in
  let newState :=
    match truthy_string (itemAdded u) with
    | Some item =>
        with_inventory (JSSet.of_list (inventory prev ++ [item])) newState
    | None => newState
    end in
  let newState :=
    match truthy_string (itemRemoved u) with
    | Some item =>
        with_inventory (filter (λ i, i ≠ item) (inventory prev)) newState
    | None => newState
    end in
  let newState :=
    match clueAdded u with
    | Some c => with_clues (clues prev ++ [newClue now c]) newState
    | None => newState
    end in
  newState.

(** The reducer of one turn update: the GM entry is built first, then the
    updater runs on the state. *)
Definition applyUpdate (entryNow : EntryClock) (clueNow : ClueClock)
    (narrative : string) (u : Updates) (prev : GameState) : GameState :=
  stateUpdater (newHistoryEntry entryNow narrative u) u clueNow prev.

(** [response.updates.memoryTriggered] on a response without [updates]
    is a property read on [undefined]. *)
Definition read_updates (response : ApiResponse) : Eff Updates :=
  match updates response with
  | Some u => ret u
  | None =>
      throw (cannotRead "memoryTriggered")
  end.

(** [setGameState(updater)] runs the updater on the latest state; the
    overlay and its timer are set from inside the updater. *)
Definition handleApiResponse (entryNow : EntryClock) (clueNow : ClueClock)
    (response : ApiResponse) : Eff unit :=
  let* u := read_updates response in
  let newHistory := newHistoryEntry entryNow (narrative response) u in
  exec (setGameState (stateUpdater newHistory u clueNow)) ;;
  if truthy_bool (memoryTriggered u)
  then exec (setShowMemoryOverlay true) ;; exec (setTimeout 3000)
  else ret ().

(** ** services/geminiService.ts *)

Definition nl : string := String (Ascii.ascii_of_nat 10) "".

(** [Array.prototype.join] *)
Definition join (sep : string) (l : list string) : string :=
  String.concat sep l.

(** The template literal [context] of [sendPlayerAction]. *)
Definition context (currentState : GameState) : string :=
  nl +:+ "    [Current State]" +:+ nl
  +:+ "    Location: " +:+ currentLocation currentState +:+ nl
  +:+ "    Inventory: " +:+ join ", " (inventory currentState) +:+ nl
  +:+ "    Clues: " +:+ join ", " (Clue.name <$> clues currentState) +:+ nl
  +:+ "    Trust Levels: " +:+ JSON_stringify (trust currentState) +:+ nl
  +:+ "  ".

Definition playerMessage (action : string) (currentState : GameState)
  : string :=
  context currentState +:+ nl +:+ "Player Action: " +:+ action.

Definition openingMessage : string :=
  "The player has just arrived at the Greybridge Station. Begin the story.".

(** [chatSession.sendMessage({ message })]: the message leaves for the
    service; the reply is what the returned promise settles with. *)
Definition sendMessage (message : string) (c : ChatSession) : ChatSession :=
  mkChatSession (sent c ++ [message]).

(** The three failure objects of the module. *)
Definition sessionLost : ApiResponse :=
  mkApiResponse "Game session lost. Please restart." None true None None.

Definition apiError : ApiResponse :=
  mkApiResponse "The whispers are too loud... (API Error)" None true None None.

Definition initFailed : ApiResponse :=
  mkApiResponse "Connection to the void failed. (Check API Key)"
    None true None None.

(** The [try { await ...; return processResponse(result) } catch] of the
    two exported functions, from the point where [sendMessage] settles:
    a rejection and a throw of [processResponse] both reach the handler,
    which returns [failure]. *)
Definition settleWith (failure : ApiResponse)
    (outcome : Settled GenAI.GenerateContentResponse) : ApiResponse :=
  match outcome with
  | Fulfilled result =>
      match processResponse result with
      | Normal response => response
      | Throw _ => failure
      end
  | Rejected => failure
  end.

(** [sendPlayerAction] up to its [await]. *)
Definition sendPlayerAction_call (action : string) (currentState : GameState)
    (w : World) : Promise * World :=
  match chatSession w with
  | None => (Resolved sessionLost, w)
  | Some c =>
      (OnService,
       set_chatSession
         (Some (sendMessage (playerMessage action currentState) c)) w)
  end.

Definition sendPlayerAction_settle := settleWith apiError.

(** [sendPlayerAction] from call to resolution, [outcome] being how the
    service settles the message if one is sent.  The returned promise
    never rejects. *)
Definition sendPlayerAction (action : string) (currentState : GameState)
    (outcome : Settled GenAI.GenerateContentResponse) (w : World)
  : ApiResponse * World :=
  match sendPlayerAction_call action currentState w with
  | (Resolved response, w') => (response, w')
  | (OnService, w') => (sendPlayerAction_settle outcome, w')
  end.

(** [initializeGame] up to its [await]; [created] tells whether
    [ai.chats.create] returned a session or threw.  The assignment to
    [chatSession] precedes the first message. *)
Definition initializeGame_call (created : bool) (w : World)
  : Promise * World :=
  if created
  then (OnService,
        set_chatSession
          (Some (sendMessage openingMessage (mkChatSession []))) w)
  else (Resolved initFailed, w).

Definition initializeGame_settle := settleWith initFailed.

(** ** App.tsx: the turn controller *)

(** What a render hands to the callbacks it creates: [handleAction] is
    [useCallback(..., [gameState, isLoading])]. *)
Record Render := mkRender { r_gameState : GameState; r_isLoading : bool }.

Definition render (w : World) : Render :=
  mkRender (gameState w) (isLoading w).

Inductive ActionType := move | investigate | talk | custom.

Definition playerEntry (now : EntryClock) (actionText : string)
  : NarrativeEntry.t := {|
  NarrativeEntry.id := Number_toString (id_now now);
  NarrativeEntry.speaker := "Alex";
  NarrativeEntry.text := actionText;
  NarrativeEntry.type := action;
  NarrativeEntry.timestamp := timestamp_now now;
|}.

Definition appendEntry (e : NarrativeEntry.t) (prev : GameState)
  : GameState :=
  with_narrativeHistory (narrativeHistory prev ++ [e]) prev.

Definition suspend (c : Caller) (p : Promise) (w : World) : World :=
  set_suspended (suspended w ++ [mkSuspended c p]) w.

(** [handleAction] up to its [await]. *)
Definition handleAction_call (closure : Render) (actionText : string)
    (type : ActionType) (now : EntryClock) (w : World) : World :=
  if r_isLoading closure then w
  else
    let w := setGameState (appendEntry (playerEntry now actionText)) w in
    let w := setIsLoading true w in
    let '(p, w) := sendPlayerAction_call actionText (r_gameState closure) w in
    suspend FromHandleAction p w.

(** [handleAction] after its [await]. *)
Definition handleAction_resume (entryNow : EntryClock) (clueNow : ClueClock)
    (response : ApiResponse) : Eff unit :=
  handleApiResponse entryNow clueNow response ;;
  exec (setIsLoading false) ;;
  exec (setInput "").

Definition systemEntry (now : EntryClock) : NarrativeEntry.t := {|
  NarrativeEntry.id := Number_toString (id_now now);
  NarrativeEntry.speaker := "System";
  NarrativeEntry.text :=
    "Failed to connect to the story engine. Please check your API Key configuration.";
  NarrativeEntry.type := action;
  NarrativeEntry.timestamp := timestamp_now now;
|}.

(** [start] of the mount effect, up to its [await] and after it. *)
Definition start_call (created : bool) (w : World) : World :=
  let w := setIsLoading true w in
  let '(p, w) := initializeGame_call created w in
  suspend FromStart p w.

Definition start_resume (entryNow : EntryClock) (clueNow : ClueClock)
    (response : ApiResponse) : Eff unit :=
  (if error response
   then exec (setGameState (appendEntry (systemEntry entryNow)))
   else handleApiResponse entryNow clueNow response) ;;
  exec (setIsLoading false).

(** ** The event loop

    After the mount effect, the component is driven by events: a control
    calls [handleAction], an awaited promise settles and the suspended
    call goes on, the overlay timer fires.  React renders again before
    the next event is handled, so a control always calls the
    [handleAction] of the latest render. *)

Inductive Event :=
  | Act (actionText : string) (type : ActionType) (now : EntryClock)
  | Settle (outcome : Settled GenAI.GenerateContentResponse)
      (entryNow : EntryClock) (clueNow : ClueClock)
  | TimerFires
  | Typing (value : string)
  | Notebook (open : bool).

(** The oldest suspended call goes on with what its promise settled with.
    A throw here is the rejection of the promise the [async] function
    returned. *)
Definition resume (outcome : Settled GenAI.GenerateContentResponse)
    (entryNow : EntryClock) (clueNow : ClueClock) : Eff unit :=
  λ w,
    match suspended w with
    | [] => (Normal (), w)
    | s :: rest =>
        let w := set_suspended rest w in
        match caller s with
        | FromStart =>
            let response :=
              match promise s with
              | Resolved r => r
              | OnService => initializeGame_settle outcome
              end in
            start_resume entryNow clueNow response w
        | FromHandleAction =>
            let response :=
              match promise s with
              | Resolved r => r
              | OnService => sendPlayerAction_settle outcome
              end in
            handleAction_resume entryNow clueNow response w
        end
    end.

Definition step (w : World) (e : Event) : World :=
  match e with
  | Act actionText type now =>
      handleAction_call (render w) actionText type now w
  | Settle outcome entryNow clueNow =>
      (resume outcome entryNow clueNow w).2
  | TimerFires =>
      match timeouts w with
      | [] => w
      | _ :: rest => setShowMemoryOverlay false (set_timeouts rest w)
      end
  | Typing value => setInput value w
  | Notebook open => setIsNotebookOpen open w
  end.

(** The component after mount and a sequence of events. *)
Definition run (created : bool) (events : list Event) : World :=
  foldl step (start_call created initialWorld) events.

(** ** The updater on the heap

    At run time a [GameState] is an object and [setGameState] hands the
    updater a reference to it.  The heap maps references to objects; the
    arrays in the properties are values here, since the updater builds
    every array it assigns with a spread or with [filter] and calls no
    mutating method on an array it was given. *)

Abbreviation Heap := (gmap nat GameState).

(** [{ ...r }]: a fresh object with the properties of the object at [r]. *)
Definition spreadObject (r : nat) (h : Heap) : option (nat * Heap) :=
  match h !! r with
  | Some o => Some (fresh (dom h), <[fresh (dom h) := o]> h)
  | None => None
  end.

(** [r.f] *)
Definition readProperty {A : Type} (f : GameState → A) (r : nat) (h : Heap)
  : option A :=
  f <$> h !! r.

(** [r.f = v], with [set] the update of property [f]. *)
Definition assignProperty (set : GameState → GameState) (r : nat) (h : Heap)
  : Heap :=
  alter set r h.

(** The updater of [handleApiResponse] on references: [prev] is read
    through the heap at each use, every write goes to [newState].  The
    result is [None] only if [prev] dangles. *)
Definition stateUpdater_heap (newHistory : NarrativeEntry.t) (u : Updates)
    (now : ClueClock) (prev : nat) (h : Heap) : option (nat * Heap) :=
  '(newState, h) ← spreadObject prev h;
  history ← readProperty narrativeHistory prev h;
  let h :=
    assignProperty (with_narrativeHistory (history ++ [newHistory]))
      newState h in
  let h :=
    match truthy_string (newLocation u) with
    | Some l => assignProperty (with_currentLocation l) newState h
    | None => h
    end in
  h ← match truthy_string (itemAdded u) with
      | Some item =>
          held ← readProperty inventory prev h;
          Some (assignProperty
                  (with_inventory (JSSet.of_list (held ++ [item])))
                  newState h)
      | None => Some h
      end;
  h ← match truthy_string (itemRemoved u) with
      | Some item =>
          held ← readProperty inventory prev h;
          Some (assignProperty
                  (with_inventory (filter (λ i, i ≠ item) held)) newState h)
      | None => Some h
      end;
  h ← match clueAdded u with
      | Some c =>
          known ← readProperty clues prev h;
          Some (assignProperty (with_clues (known ++ [newClue now c]))
                  newState h)
      | None => Some h
      end;
  Some (newState, h).

(** ** Sequences of applied updates *)

(** One application of the reducer: the narrative and the updates of the
    response, and the clock readings taken while it is applied. *)
Record Applied := mkApplied {
  a_entryNow : EntryClock;
  a_clueNow : ClueClock;
  a_narrative : string;
  a_updates : Updates;
}.

Definition applyOne (s : GameState) (t : Applied) : GameState :=
  applyUpdate (a_entryNow t) (a_clueNow t) (a_narrative t) (a_updates t) s.

Definition applyAll (turns : list Applied) (s : GameState) : GameState :=
  foldl applyOne s turns.

(** The [Date.now()] readings that became clue ids, oldest first. *)
Definition clueReadings (turns : list Applied) : list Z :=
  omap (λ t, match clueAdded (a_updates t) with
             | Some _ => Some (clue_id_now (a_clueNow t))
             | None => None
             end) turns.

(** The clues the applications create, oldest first. *)
Definition createdClues (turns : list Applied) : list Clue.t :=
  omap (λ t, newClue (a_clueNow t) <$> clueAdded (a_updates t)) turns.

(** At most one call is suspended, and none while the component is idle. *)
Definition one_in_flight (w : World) : Prop :=
  (length (suspended w) ≤ 1)%nat ∧ (isLoading w = false → suspended w = []).

(** [s'] has the [phase], [trust] and [puzzleActive] of [s]. *)
Definition same_frame (s s' : GameState) : Prop :=
  phase s' = phase s ∧ trust s' = trust s
  ∧ puzzleActive s' = puzzleActive s.

(** Events other than the settling of the awaited promise. *)
Definition before_reply (e : Event) : Prop :=
  match e with
  | Settle _ _ _ => False
  | _ => True
  end.

(** The update names no location, or one of the enum. *)
Definition names_known_location (u : Updates) : Prop :=
  match truthy_string (newLocation u) with
  | Some l => l ∈ LocationId_values
  | None => True
  end.

(** How often [x] occurs in [l]. *)
Definition occurrences (x : string) (l : list string) : nat :=
  length (filter (λ i, i = x) l).

(** ** Auxiliary notions for the further properties *)

(** [result.candidates?.[0]?.content?.parts], or no parts at all. *)
Definition firstParts (result : GenAI.GenerateContentResponse)
  : list GenAI.Part :=
  default []
    (GenAI.candidates result ?. head ?. GenAI.content ?. GenAI.parts).

(** The [updates] object [processResponse] builds from the arguments of a
    call. *)
Definition updatesOf (a : Args.t) : Updates :=
  mkUpdates (Args.newLocation a) (Args.itemAdded a) (Args.itemRemoved a)
    (Args.clueAdded a) (Args.memoryTriggered a).

(** The entries of the history that [handleAction] wrote. *)
Definition playerEntries (s : GameState) : list NarrativeEntry.t :=
  filter (λ e, NarrativeEntry.speaker e = "Alex") (narrativeHistory s).

(** [s'] keeps the history and the clues of [s] as they are and may have
    more of each at the end. *)
Definition extends (s s' : GameState) : Prop :=
  narrativeHistory s `prefix_of` narrativeHistory s'
  ∧ clues s `prefix_of` clues s'.

(** While the overlay shows, a timer that clears it is pending; every
    pending timer has the delay of the flash. *)
Definition overlay_has_timer (w : World) : Prop :=
  (showMemoryOverlay w = true → timeouts w ≠ [])
  ∧ Forall (λ delay, delay = 3000) (timeouts w).

(** The stages the component goes through when [ai.chats.create] threw:
    waiting for the failure object of [initializeGame], idle with the
    system entry, waiting with the first action, and stopped. *)
Definition without_session (w : World) : Prop :=
  chatSession w = None
  ∧ currentLocation (gameState w) = currentLocation initialGameState
  ∧ inventory (gameState w) = []
  ∧ clues (gameState w) = []
  ∧ ((isLoading w = true
      ∧ suspended w = [mkSuspended FromStart (Resolved initFailed)]
      ∧ narrativeHistory (gameState w) = [])
     ∨ (isLoading w = false ∧ suspended w = []
        ∧ length (narrativeHistory (gameState w)) = 1%nat)
     ∨ (isLoading w = true
        ∧ suspended w = [mkSuspended FromHandleAction (Resolved sessionLost)]
        ∧ length (narrativeHistory (gameState w)) = 2%nat)
     ∨ (isLoading w = true ∧ suspended w = []
        ∧ length (narrativeHistory (gameState w)) = 2%nat)).

(** One more message has been sent than the history has player entries
    (the first message is the opening one). *)
Definition sent_matches_history (w : World) : Prop :=
  ∃ c, chatSession w = Some c
       ∧ length (sent c) = S (length (playerEntries (gameState w))).

(** What a resumed call can do to the game state: nothing, append the
    system entry, or apply an update. *)
Definition game_effect (entryNow : EntryClock) (clueNow : ClueClock)
    (s s' : GameState) : Prop :=
  s' = s ∨ s' = appendEntry (systemEntry entryNow) s
  ∨ ∃ n u, s' = applyUpdate entryNow clueNow n u s.

(** What it can do to the overlay and its timers: nothing, or raise the
    overlay and set one more timer. *)
Definition overlay_effect (w w' : World) : Prop :=
  (showMemoryOverlay w' = showMemoryOverlay w ∧ timeouts w' = timeouts w)
  ∨ (showMemoryOverlay w' = true
     ∧ timeouts w' = (timeouts w ++ [3000])%list).

(** * Properties *)

(** ** The insertion-ordered set *)

Section JSSetFacts.
Implicit Types (s l : list string) (x y : string).

Lemma JSSet_add_NoDup s x : NoDup s → NoDup (JSSet.add s x).
Proof.
  intros Hs. unfold JSSet.add. case_decide as Hx; [done|].
  apply NoDup_app. split_and!; [done| |apply NoDup_singleton].
  intros y Hy ->%list_elem_of_singleton. done.
Qed.

Lemma JSSet_elem_of_add s x y : y ∈ JSSet.add s x ↔ y ∈ s ∨ y = x.
Proof.
  unfold JSSet.add. case_decide as Hx.
  - split; [auto|]. intros [?| ->]; done.
  - rewrite elem_of_app, list_elem_of_singleton. done.
Qed.

Lemma JSSet_foldl_add_NoDup l s : NoDup s → NoDup (foldl JSSet.add s l).
Proof.
  revert s. induction l as [|x l IH]; intros s Hs; simpl; [done|].
  apply IH, JSSet_add_NoDup, Hs.
Qed.

Lemma JSSet_elem_of_foldl_add l s y :
  y ∈ foldl JSSet.add s l ↔ y ∈ s ∨ y ∈ l.
Proof.
  revert s. induction l as [|x l IH]; intros s; simpl.
  - rewrite elem_of_nil. tauto.
  - rewrite IH, JSSet_elem_of_add, elem_of_cons. tauto.
Qed.

(** Spreading a [Set] gives a duplicate-free array. *)
Lemma JSSet_of_list_NoDup l : NoDup (JSSet.of_list l).
Proof. apply JSSet_foldl_add_NoDup, NoDup_nil_2. Qed.

Lemma JSSet_elem_of_of_list l y : y ∈ JSSet.of_list l ↔ y ∈ l.
Proof.
  unfold JSSet.of_list. rewrite JSSet_elem_of_foldl_add, elem_of_nil. tauto.
Qed.

Lemma JSSet_foldl_add_fresh l s :
  NoDup (s ++ l) → foldl JSSet.add s l = (s ++ l)%list.
Proof.
  revert s. induction l as [|x l IH]; intros s Hs; simpl.
  - by rewrite app_nil_r.
  - assert (x ∉ s) as Hx.
    { apply NoDup_app in Hs as (_ & Hs & _). intros Hin.
      apply (Hs x Hin). left. }
    unfold JSSet.add at 2. rewrite decide_False by done.
    rewrite IH; rewrite <- (assoc_L (++)); done.
Qed.

(** On a duplicate-free array, [[...new Set(l)]] is [l] itself. *)
Lemma JSSet_of_list_id l : NoDup l → JSSet.of_list l = l.
Proof. intros Hl. apply (JSSet_foldl_add_fresh l []). done. Qed.
End JSSetFacts.

(** ** The reducer, field by field *)

Section Reducer.
Implicit Types (s prev : GameState) (u : Updates) (n : string).
Implicit Types (e : EntryClock) (c : ClueClock).

Lemma applyUpdate_narrativeHistory e c n u s :
  narrativeHistory (applyUpdate e c n u s)
  = (narrativeHistory s ++ [newHistoryEntry e n u])%list.
Proof.
  unfold applyUpdate, stateUpdater.
  destruct (truthy_string (newLocation u)), (truthy_string (itemAdded u)),
    (truthy_string (itemRemoved u)), (clueAdded u); reflexivity.
Qed.

Lemma applyUpdate_currentLocation e c n u s :
  currentLocation (applyUpdate e c n u s)
  = default (currentLocation s) (truthy_string (newLocation u)).
Proof.
  unfold applyUpdate, stateUpdater.
  destruct (truthy_string (newLocation u)), (truthy_string (itemAdded u)),
    (truthy_string (itemRemoved u)), (clueAdded u); reflexivity.
Qed.

(** The removal is computed from [prev.inventory] and assigned last. *)
Lemma applyUpdate_inventory e c n u s :
  inventory (applyUpdate e c n u s)
  = match truthy_string (itemRemoved u), truthy_string (itemAdded u) with
    | Some removed, _ => filter (λ i, i ≠ removed) (inventory s)
    | None, Some added => JSSet.of_list (inventory s ++ [added])
    | None, None => inventory s
    end.
Proof.
  unfold applyUpdate, stateUpdater.
  destruct (truthy_string (newLocation u)), (truthy_string (itemAdded u)),
    (truthy_string (itemRemoved u)), (clueAdded u); reflexivity.
Qed.

Lemma applyUpdate_clues e c n u s :
  clues (applyUpdate e c n u s)
  = (clues s ++ match clueAdded u with
                | Some k => [newClue c k]
                | None => []
                end)%list.
Proof.
  unfold applyUpdate, stateUpdater.
  destruct (truthy_string (newLocation u)), (truthy_string (itemAdded u)),
    (truthy_string (itemRemoved u)), (clueAdded u);
    simpl; by rewrite ?app_nil_r.
Qed.

Lemma applyUpdate_frame e c n u s :
  phase (applyUpdate e c n u s) = phase s
  ∧ trust (applyUpdate e c n u s) = trust s
  ∧ puzzleActive (applyUpdate e c n u s) = puzzleActive s.
Proof.
  unfold applyUpdate, stateUpdater.
  destruct (truthy_string (newLocation u)), (truthy_string (itemAdded u)),
    (truthy_string (itemRemoved u)), (clueAdded u); done.
Qed.

Lemma occurrences_NoDup (x : string) (l : list string) :
  NoDup l → x ∈ l → occurrences x l = 1%nat.
Proof.
  unfold occurrences. induction 1 as [|y l Hy Hl IH]; intros Hx.
  - by apply elem_of_nil in Hx.
  - rewrite filter_cons. case_decide as Hxy.
    + subst y. simpl. f_equal.
      apply length_zero_iff_nil, elem_of_nil_inv. intros z.
      by intros [-> ?]%list_elem_of_filter.
    + apply IH. apply elem_of_cons in Hx as [->|?]; done.
Qed.
End Reducer.

(** ** Claims about the reducer *)

(** C2 (the code departs from the claim).  The claim has the removal act
    on the inventory that results from the add.  In [handleApiResponse]
    both assignments read [prev.inventory] and the removal is assigned
    last: when [itemAdded] and [itemRemoved] are both present, the
    resulting inventory is [prev.inventory] without the removed name, and
    an added item that was not held before is not in it. *)
Theorem C2_removal_overwrites_the_add
    (e : EntryClock) (c : ClueClock) (n : string) (u : Updates)
    (prev : GameState) (added removed : string) :
  truthy_string (itemAdded u) = Some added →
  truthy_string (itemRemoved u) = Some removed →
  added ∉ inventory prev →
  inventory (applyUpdate e c n u prev)
  = filter (λ i, i ≠ removed) (inventory prev)
  ∧ added ∉ inventory (applyUpdate e c n u prev).
Proof.
  intros Ha Hr Hfresh. rewrite applyUpdate_inventory, Hr. split; [done|].
  by intros [_ ?]%list_elem_of_filter.
Qed.

Lemma C2_removal_overwrites_the_add_witness :
  let u := mkUpdates None (Some "Rusty Key") (Some "Old Map") None None in
  let s := applyUpdate (mkEntryClock 1 1) (mkClueClock 1 "") "You trade."
             u initialGameState in
  truthy_string (itemAdded u) = Some "Rusty Key"
  ∧ truthy_string (itemRemoved u) = Some "Old Map"
  ∧ ("Rusty Key" ∉ inventory initialGameState)
  ∧ inventory s = []
  ∧ "Rusty Key" ∉ inventory s.
Proof.
  intros u s.
  split_and!; [reflexivity | reflexivity | apply not_elem_of_nil | |].
  - apply (C2_removal_overwrites_the_add (mkEntryClock 1 1) (mkClueClock 1 "")
             "You trade." u initialGameState "Rusty Key" "Old Map");
      [reflexivity | reflexivity | apply not_elem_of_nil].
  - apply (C2_removal_overwrites_the_add (mkEntryClock 1 1) (mkClueClock 1 "")
             "You trade." u initialGameState "Rusty Key" "Old Map");
      [reflexivity | reflexivity | apply not_elem_of_nil].
Defined.

(** C3 (counterexample).  From the initial state, whose location is in the
    enum, an update naming "atlantis" moves the player there. *)
Lemma C3_counterexample :
  let u := mkUpdates (Some "atlantis") None None None None in
  let s := applyUpdate (mkEntryClock 1 1) (mkClueClock 1 "")
             "The sea closes over you." u initialGameState in
  ("atlantis" ∉ LocationId_values)
  ∧ currentLocation initialGameState ∈ LocationId_values
  ∧ currentLocation s ≠ currentLocation initialGameState
  ∧ currentLocation s ∉ LocationId_values.
Proof.
  assert ("atlantis" ∉ LocationId_values) as Hno.
  { intros H. repeat (apply elem_of_cons in H as [?|H]; [done|]).
    by apply elem_of_nil in H. }
  cbn zeta. split_and!; [done| |done|done].
  apply list_elem_of_here.
Qed.

(** C3 (amended).  The reducer stores a present, non-empty [newLocation]
    as it is and keeps the location otherwise; it does not consult the
    enum.  Hence, from a state whose location is in the enum, the location
    is in the enum after any sequence of updates each of which names no
    location or one of the enum. *)
Theorem C3_location_follows_the_update
    (turns : list Applied) (s : GameState) :
  currentLocation s ∈ LocationId_values →
  Forall (λ t, names_known_location (a_updates t)) turns →
  (∀ e c n u s0,
     currentLocation (applyUpdate e c n u s0)
     = default (currentLocation s0) (truthy_string (newLocation u)))
  ∧ currentLocation (applyAll turns s) ∈ LocationId_values.
Proof.
  intros Hs Hturns. split; [apply applyUpdate_currentLocation|].
  revert s Hs. induction Hturns as [|t turns Ht _ IH]; intros s Hs; [done|].
  apply IH. unfold applyOne. rewrite applyUpdate_currentLocation.
  unfold names_known_location in Ht.
  by destruct (truthy_string (newLocation (a_updates t))).
Qed.

Lemma C3_location_follows_the_update_witness :
  let t := mkApplied (mkEntryClock 1 1) (mkClueClock 1 "") "You walk."
             (mkUpdates (Some "forest") None None None None) in
  currentLocation initialGameState ∈ LocationId_values
  ∧ Forall (λ t, names_known_location (a_updates t)) [t]
  ∧ currentLocation (applyAll [t] initialGameState) ∈ LocationId_values.
Proof.
  intros t.
  assert (currentLocation initialGameState ∈ LocationId_values) as H0
    by apply list_elem_of_here.
  assert (Forall (λ t, names_known_location (a_updates t)) [t]) as H1.
  { apply Forall_singleton. unfold names_known_location. simpl.
    do 4 apply list_elem_of_further. apply list_elem_of_here. }
  split_and!; [exact H0 | exact H1 |].
  exact (proj2 (C3_location_follows_the_update [t] initialGameState H0 H1)).
Defined.

(** C5.  A merge keeps a duplicate-free inventory duplicate-free, and two
    successive updates that add "Key" (and remove nothing) leave "Key" in
    the inventory exactly once, whatever the state they start from. *)
Theorem C5_inventory_keeps_set_semantics
    (e : EntryClock) (c : ClueClock) (n : string) (u : Updates)
    (prev : GameState) :
  NoDup (inventory prev) →
  NoDup (inventory (applyUpdate e c n u prev))
  ∧ ∀ e1 c1 n1 l1 k1 m1 e2 c2 n2 l2 k2 m2 s0,
      occurrences "Key"
        (inventory
           (applyUpdate e2 c2 n2 (mkUpdates l2 (Some "Key") None k2 m2)
              (applyUpdate e1 c1 n1 (mkUpdates l1 (Some "Key") None k1 m1)
                 s0)))
      = 1%nat.
Proof.
  intros Hprev. split.
  - rewrite applyUpdate_inventory.
    destruct (truthy_string (itemRemoved u)), (truthy_string (itemAdded u));
      auto using NoDup_filter, JSSet_of_list_NoDup.
  - intros. rewrite applyUpdate_inventory. simpl.
    apply occurrences_NoDup; [apply JSSet_of_list_NoDup|].
    apply JSSet_elem_of_of_list, elem_of_app. right. apply list_elem_of_here.
Qed.

Lemma C5_inventory_keeps_set_semantics_witness :
  let s := with_inventory ["Lantern"; "Key"] initialGameState in
  let u := mkUpdates None (Some "Key") None None None in
  NoDup (inventory s)
  ∧ NoDup (inventory (applyUpdate (mkEntryClock 1 1) (mkClueClock 1 "")
                        "A key glints." u s))
  ∧ occurrences "Key"
      (inventory
         (applyUpdate (mkEntryClock 2 2) (mkClueClock 2 "") "Again." u
            (applyUpdate (mkEntryClock 1 1) (mkClueClock 1 "")
               "A key glints." u initialGameState)))
    = 1%nat.
Proof.
  intros s u.
  assert (NoDup (inventory s)) as Hs.
  { simpl. apply NoDup_cons. split.
    - intros H. apply elem_of_cons in H as [H|H]; [discriminate|].
      by apply elem_of_nil in H.
    - apply NoDup_singleton. }
  pose proof (C5_inventory_keeps_set_semantics (mkEntryClock 1 1)
                (mkClueClock 1 "") "A key glints." u s Hs) as [H1 H2].
  split_and!; [exact Hs | exact H1 | apply H2].
Defined.

(** ** Clues *)

Lemma applyAll_clues (turns : list Applied) (s : GameState) :
  clues (applyAll turns s) = (clues s ++ createdClues turns)%list.
Proof.
  unfold applyAll. revert s.
  induction turns as [|t turns IH]; intros s; simpl.
  - by rewrite app_nil_r.
  - rewrite IH. unfold applyOne at 1.
    rewrite applyUpdate_clues, <- (assoc_L (++)). unfold createdClues.
    simpl. by destruct (clueAdded (a_updates t)).
Qed.

Lemma omap_cons_case {A B : Type} (f : A → option B) (x : A) (l : list A) :
  omap f (x :: l)
  = match f x with
    | Some y => y :: omap f l
    | None => omap f l
    end.
Proof. reflexivity. Qed.

Lemma createdClues_ids (turns : list Applied) :
  Clue.id <$> createdClues turns = Number_toString <$> clueReadings turns.
Proof.
  induction turns as [|t turns IH]; [done|].
  unfold createdClues, clueReadings in *. rewrite !omap_cons_case.
  destruct (clueAdded (a_updates t)); simpl; [f_equal|]; exact IH.
Qed.

(** C6 (counterexample).  Two clues created at the same reading of
    [Date.now()] carry the same id. *)
Lemma C6_counterexample :
  let found name := mkUpdates None None None (Some (ClueAdded.mk name "..."))
                      None in
  let t1 := mkApplied (mkEntryClock 5 5) (mkClueClock 5 "a") "A note."
              (found "Strange Note") in
  let t2 := mkApplied (mkEntryClock 5 5) (mkClueClock 5 "b") "A photo."
              (found "Torn Photo") in
  Clue.id <$> clues (applyAll [t1; t2] initialGameState) = ["5"; "5"]
  ∧ ¬ NoDup (Clue.id <$> clues (applyAll [t1; t2] initialGameState)).
Proof.
  cbn zeta. split; [reflexivity|].
  intros [Hin _]%NoDup_cons. apply Hin, list_elem_of_here.
Qed.

(** C6 (amended).  Over any sequence of applied updates the clues only
    grow at the end: the clues held before are a prefix of the clues held
    after, so none is changed or removed and the length does not
    decrease.  The id of a created clue is the decimal numeral of the
    [Date.now()] reading taken at its creation: the ids after the
    sequence are the ids before followed by the numerals of these
    readings.  Hence the ids are pairwise distinct exactly when the ids
    held at the start are, the readings are pairwise distinct, and no
    numeral of a reading is an id held at the start. *)
Theorem C6_clues_are_append_only
    (turns : list Applied) (s : GameState) :
  clues s `prefix_of` clues (applyAll turns s)
  ∧ (length (clues s) ≤ length (clues (applyAll turns s)))%nat
  ∧ Clue.id <$> clues (applyAll turns s)
    = ((Clue.id <$> clues s) ++ (Number_toString <$> clueReadings turns))%list
  ∧ (NoDup (Clue.id <$> clues (applyAll turns s))
     ↔ NoDup (Clue.id <$> clues s)
       ∧ NoDup (clueReadings turns)
       ∧ ∀ t, t ∈ clueReadings turns →
              Number_toString t ∉ Clue.id <$> clues s).
Proof.
  rewrite applyAll_clues.
  rewrite fmap_app, createdClues_ids, length_app. split_and!.
  - by eexists.
  - lia.
  - done.
  - rewrite NoDup_app, (NoDup_fmap Number_toString). split.
    + intros (Hs & Hfresh & Hturns). split_and!; [done..|].
      intros t Ht Hin. apply (Hfresh _ Hin). by apply list_elem_of_fmap_2.
    + intros (Hs & Hturns & Hfresh). split_and!; [done| |done].
      intros x Hx [t [-> Ht]]%list_elem_of_fmap. by apply (Hfresh t).
Qed.

Lemma C6_clues_are_append_only_witness :
  let found name := mkUpdates None None None (Some (ClueAdded.mk name "..."))
                      None in
  let t1 := mkApplied (mkEntryClock 5 5) (mkClueClock 5 "a") "A note."
              (found "Strange Note") in
  let t2 := mkApplied (mkEntryClock 9 9) (mkClueClock 9 "b") "A photo."
              (found "Torn Photo") in
  NoDup (Clue.id <$> clues initialGameState)
  ∧ NoDup (clueReadings [t1; t2])
  ∧ (∀ t, t ∈ clueReadings [t1; t2] →
       Number_toString t ∉ Clue.id <$> clues initialGameState)
  ∧ NoDup (Clue.id <$> clues (applyAll [t1; t2] initialGameState)).
Proof.
  intros found t1 t2.
  assert (NoDup (Clue.id <$> clues initialGameState)) as H0
    by apply NoDup_nil_2.
  assert (NoDup (clueReadings [t1; t2])) as H1.
  { apply NoDup_cons. split; [|apply NoDup_singleton].
    intros H. apply list_elem_of_singleton in H. discriminate. }
  assert (∀ t, t ∈ clueReadings [t1; t2] →
            Number_toString t ∉ Clue.id <$> clues initialGameState) as H2.
  { intros t _. apply not_elem_of_nil. }
  split_and!; [exact H0 | exact H1 | exact H2 |].
  apply (proj2 (proj2 (proj2 (C6_clues_are_append_only [t1; t2]
                                initialGameState)))).
  split_and!; [exact H0 | exact H1 | exact H2].
Defined.

(** ** Frame *)

Section Frame.
Implicit Types (w : World) (s : GameState).

Lemma same_frame_trans s1 s2 s3 :
  same_frame s1 s2 → same_frame s2 s3 → same_frame s1 s3.
Proof.
  unfold same_frame. intros (? & ? & ?) (? & ? & ?). split_and!; congruence.
Qed.

Lemma handleApiResponse_gameState entryNow clueNow response w :
  gameState (handleApiResponse entryNow clueNow response w).2
  = match updates response with
    | Some u =>
        applyUpdate entryNow clueNow (narrative response) u (gameState w)
    | None => gameState w
    end.
Proof.
  unfold handleApiResponse, read_updates, bind.
  destruct (updates response) as [u|]; simpl; [|done].
  by destruct (truthy_bool (memoryTriggered u)).
Qed.

Lemma handleApiResponse_frame entryNow clueNow response w :
  same_frame (gameState w)
    (gameState (handleApiResponse entryNow clueNow response w).2).
Proof.
  rewrite handleApiResponse_gameState.
  destruct (updates response); [apply applyUpdate_frame|done].
Qed.

Lemma handleAction_resume_frame entryNow clueNow response w :
  same_frame (gameState w)
    (gameState (handleAction_resume entryNow clueNow response w).2).
Proof.
  pose proof (handleApiResponse_frame entryNow clueNow response w) as H.
  unfold handleAction_resume, bind.
  by destruct (handleApiResponse entryNow clueNow response w) as [[[]|] w'].
Qed.

Lemma start_resume_frame entryNow clueNow response w :
  same_frame (gameState w)
    (gameState (start_resume entryNow clueNow response w).2).
Proof.
  pose proof (handleApiResponse_frame entryNow clueNow response w) as H.
  unfold start_resume, bind. destruct (error response); [done|].
  by destruct (handleApiResponse entryNow clueNow response w) as [[[]|] w'].
Qed.

Lemma step_frame w e : same_frame (gameState w) (gameState (step w e)).
Proof.
  destruct e as [text ty now|outcome en cn| |v|o]; simpl.
  - unfold handleAction_call. simpl. destruct (isLoading w); [done|].
    unfold sendPlayerAction_call. simpl. by destruct (chatSession w).
  - unfold resume. destruct (suspended w) as [|x rest]; [done|].
    destruct (caller x).
    + apply (start_resume_frame _ _ _ (set_suspended rest w)).
    + apply (handleAction_resume_frame _ _ _ (set_suspended rest w)).
  - by destruct (timeouts w).
  - done.
  - done.
Qed.

Lemma run_frame created events :
  same_frame initialGameState (gameState (run created events)).
Proof.
  unfold run.
  assert (same_frame initialGameState
            (gameState (start_call created initialWorld))) as H0
    by (by destruct created).
  revert H0. generalize (start_call created initialWorld) as w.
  induction events as [|e events IH]; intros w Hw; simpl; [done|].
  apply IH. eapply same_frame_trans; [exact Hw|apply step_frame].
Qed.
End Frame.

(** C7.  An update without any optional field appends the GM entry (type
    description, text the narrative) to [narrativeHistory] and changes no
    other field.  Whatever the update, [phase], [trust] and
    [puzzleActive] are those of the state it is applied to; this holds
    for every response [handleApiResponse] is given, the failure objects
    included, and so over every run of the component they keep their
    initial values. *)
Theorem C7_only_the_history_changes
    (e : EntryClock) (c : ClueClock) (n : string) (s : GameState) :
  applyUpdate e c n noUpdates s
  = mkGameState (currentLocation s) (inventory s) (clues s)
      (narrativeHistory s
       ++ [NarrativeEntry.mk (Number_toString (id_now e)) "GM" n description
             (timestamp_now e)])
      (phase s) (trust s) (puzzleActive s)
  ∧ (∀ u, same_frame s (applyUpdate e c n u s))
  ∧ (∀ response w,
       same_frame (gameState w)
         (gameState (handleApiResponse e c response w).2))
  ∧ (∀ created events,
       same_frame initialGameState (gameState (run created events))).
Proof.
  split_and!; [reflexivity| | |].
  - intros u. apply applyUpdate_frame.
  - intros response w. apply handleApiResponse_frame.
  - apply run_frame.
Qed.

(** ** The normaliser and the service boundary *)

(** C9 (the code departs from the claim).  [processResponse] guards every
    step down to the function call with [?.] but reads [args.narrative]
    unguarded: on a reply whose function call carries no [args] it throws.
    The [catch] of [sendPlayerAction] turns the throw into the API-error
    object. *)
Theorem C9_call_without_args_throws
    (id name text : option string) (parts : list GenAI.Part)
    (candidates : list GenAI.Candidate) :
  let call := GenAI.mkFunctionCall id None name in
  let reply :=
    GenAI.mkResponse
      (Some (GenAI.mkCandidate
               (Some (GenAI.mkContent
                        (Some (GenAI.mkPart (Some call) text :: parts))))
             :: candidates)) in
  processResponse reply
  = Throw (cannotRead "narrative")
  ∧ sendPlayerAction_settle (Fulfilled reply) = apiError.
Proof. split; reflexivity. Qed.

(** C10.  Without a session, [sendPlayerAction] resolves to the
    session-lost object, whatever the service would have answered, and
    leaves the world as it is: no session is created and no message is
    sent. *)
Theorem C10_no_session_no_call
    (action : string) (currentState : GameState)
    (outcome : Settled GenAI.GenerateContentResponse) (w : World) :
  chatSession w = None →
  sendPlayerAction action currentState outcome w
  = (mkApiResponse "Game session lost. Please restart." None true None None,
     w).
Proof.
  intros Hnone. unfold sendPlayerAction, sendPlayerAction_call.
  by rewrite Hnone.
Qed.

Lemma C10_no_session_no_call_witness :
  chatSession initialWorld = None
  ∧ sendPlayerAction "search the desk" initialGameState Rejected initialWorld
    = (mkApiResponse "Game session lost. Please restart." None true None None,
       initialWorld).
Proof.
  split; [reflexivity|].
  apply (C10_no_session_no_call "search the desk" initialGameState Rejected
           initialWorld).
  reflexivity.
Defined.

(** ** The turn controller *)

Section Controller.
Implicit Types (w : World) (e : Event).

Lemma handleApiResponse_suspended entryNow clueNow response w :
  suspended (handleApiResponse entryNow clueNow response w).2 = suspended w.
Proof.
  unfold handleApiResponse, read_updates, bind.
  destruct (updates response) as [u|]; simpl; [|done].
  by destruct (truthy_bool (memoryTriggered u)).
Qed.

Lemma handleAction_resume_suspended entryNow clueNow response w :
  suspended (handleAction_resume entryNow clueNow response w).2
  = suspended w.
Proof.
  pose proof (handleApiResponse_suspended entryNow clueNow response w) as H.
  unfold handleAction_resume, bind.
  by destruct (handleApiResponse entryNow clueNow response w) as [[[]|] w'].
Qed.

Lemma start_resume_suspended entryNow clueNow response w :
  suspended (start_resume entryNow clueNow response w).2 = suspended w.
Proof.
  pose proof (handleApiResponse_suspended entryNow clueNow response w) as H.
  unfold start_resume, bind. destruct (error response); [done|].
  by destruct (handleApiResponse entryNow clueNow response w) as [[[]|] w'].
Qed.

Lemma step_one_in_flight w e : one_in_flight w → one_in_flight (step w e).
Proof.
  intros [Hlen Hidle]. destruct e as [text ty now|outcome en cn| |v|o]; simpl.
  - unfold handleAction_call. simpl.
    destruct (isLoading w) eqn:Hl; [split; [done|congruence]|].
    unfold sendPlayerAction_call. simpl.
    destruct (chatSession w); unfold one_in_flight; simpl;
      rewrite (Hidle eq_refl); simpl; (split; [lia|discriminate]).
  - unfold resume. destruct (suspended w) as [|s rest] eqn:Hs.
    { split; simpl; rewrite Hs; done. }
    assert (rest = []) as -> by (destruct rest; simpl in Hlen; [done|lia]).
    unfold one_in_flight.
    destruct (caller s);
      rewrite ?start_resume_suspended, ?handleAction_resume_suspended;
      simpl; (split; [lia|done]).
  - destruct (timeouts w); split; done.
  - split; done.
  - split; done.
Qed.

Lemma run_one_in_flight created events : one_in_flight (run created events).
Proof.
  unfold run.
  assert (one_in_flight (start_call created initialWorld)) as H0.
  { destruct created; split; simpl; done || lia. }
  revert H0. generalize (start_call created initialWorld) as w.
  induction events as [|e events IH]; intros w Hw; simpl; [done|].
  apply IH, step_one_in_flight, Hw.
Qed.

Lemma step_stays_busy w e :
  before_reply e → isLoading w = true →
  isLoading (step w e) = true ∧ gameState (step w e) = gameState w
  ∧ suspended (step w e) = suspended w.
Proof.
  intros He Hbusy. destruct e as [text ty now|outcome en cn| |v|o]; simpl.
  - unfold handleAction_call. simpl. by rewrite Hbusy.
  - destruct He.
  - by destruct (timeouts w).
  - done.
  - done.
Qed.

Lemma steps_stay_busy w events :
  Forall before_reply events → isLoading w = true →
  isLoading (foldl step w events) = true
  ∧ gameState (foldl step w events) = gameState w
  ∧ suspended (foldl step w events) = suspended w.
Proof.
  intros Hev. revert w.
  induction Hev as [|e events He _ IH]; intros w Hbusy; simpl; [done|].
  destruct (step_stays_busy w e He Hbusy) as (Hb & Hg & Hs).
  destruct (IH _ Hb) as (? & ? & ?). split_and!; congruence.
Qed.

(** The guard of [handleAction] reads the [isLoading] its render captured,
    not the cell: the closure of an idle render, called again before the
    next render, submits again.  The event loop never does this. *)
Lemma handleAction_call_reads_the_closure w text ty now :
  isLoading w = false →
  let closure := render w in
  let w1 := handleAction_call closure text ty now w in
  let w2 := handleAction_call closure text ty now w1 in
  length (narrativeHistory (gameState w2))
  = S (length (narrativeHistory (gameState w1))).
Proof.
  intros Hidle closure w1 w2. subst closure w1 w2.
  unfold handleAction_call. simpl.
  rewrite Hidle. unfold sendPlayerAction_call. simpl.
  destruct (chatSession w) eqn:Hsession; simpl; rewrite ?Hsession; simpl;
    rewrite !length_app; simpl; lia.
Qed.

(** The mount effect shows the sibling path: [start] tests
    [response.error] before it calls [handleApiResponse], so a failed
    initialisation is surfaced and the component returns to idle. *)
Lemma start_resume_failure entryNow clueNow response w :
  error response = true →
  start_resume entryNow clueNow response w
  = (Normal (),
     setIsLoading false
       (setGameState (appendEntry (systemEntry entryNow)) w)).
Proof. intros Herr. unfold start_resume, bind, exec. by rewrite Herr. Qed.

(** A response without [updates] makes [handleApiResponse] throw before
    it writes any state. *)
Lemma handleApiResponse_without_updates entryNow clueNow response w :
  updates response = None →
  handleApiResponse entryNow clueNow response w
  = (Throw (cannotRead "memoryTriggered"),
     w).
Proof.
  intros Hnone. unfold handleApiResponse, read_updates, bind.
  by rewrite Hnone.
Qed.
End Controller.

(** C1 (the code departs from the claim).  When the service rejects the
    message of a turn, [sendPlayerAction] resolves to its API-error
    object, which has no [updates]; [handleApiResponse] throws on it, so
    the promise of [handleAction] rejects, no failure entry is added to
    the history (only the player's entry is there), and [isLoading] stays
    [true]: every later call of [handleAction] returns at once. *)
Theorem C1_failed_turn_leaves_the_controller_busy
    (w : World) (session : ChatSession) (text : string) (ty : ActionType)
    (now entryNow : EntryClock) (clueNow : ClueClock) :
  isLoading w = false →
  suspended w = [] →
  chatSession w = Some session →
  let w1 := step w (Act text ty now) in
  let end_of_turn := resume Rejected entryNow clueNow w1 in
  sendPlayerAction_settle Rejected
  = mkApiResponse "The whispers are too loud... (API Error)" None true
      None None
  ∧ end_of_turn.1
    = Throw (cannotRead "memoryTriggered")
  ∧ gameState end_of_turn.2 = appendEntry (playerEntry now text) (gameState w)
  ∧ isLoading end_of_turn.2 = true
  ∧ ∀ text' ty' now',
      step end_of_turn.2 (Act text' ty' now') = end_of_turn.2.
Proof.
  intros Hidle Hnone Hsession w1 end_of_turn.
  assert (end_of_turn
          = (Throw (cannotRead "memoryTriggered"),
             set_suspended [] w1)) as ->.
  { subst end_of_turn w1. simpl. unfold handleAction_call. simpl.
    rewrite Hidle. unfold sendPlayerAction_call. simpl. rewrite Hsession.
    unfold resume, suspend. simpl. rewrite Hnone. simpl.
    unfold handleAction_resume, bind.
    by rewrite handleApiResponse_without_updates. }
  subst w1. simpl. unfold handleAction_call. simpl. rewrite Hidle.
  unfold sendPlayerAction_call. simpl. rewrite Hsession. simpl.
  split_and!; done.
Qed.

Lemma C1_failed_turn_leaves_the_controller_busy_witness :
  let w := set_chatSession (Some (mkChatSession [openingMessage]))
             initialWorld in
  let w1 := step w (Act "search the desk" custom (mkEntryClock 5 5)) in
  let end_of_turn :=
    resume Rejected (mkEntryClock 7 7) (mkClueClock 7 "") w1 in
  isLoading w = false
  ∧ suspended w = []
  ∧ chatSession w = Some (mkChatSession [openingMessage])
  ∧ narrativeHistory (gameState end_of_turn.2)
    = [NarrativeEntry.mk "5" "Alex" "search the desk" action 5]
  ∧ isLoading end_of_turn.2 = true.
Proof.
  intros w w1 end_of_turn.
  pose proof (C1_failed_turn_leaves_the_controller_busy w
                (mkChatSession [openingMessage]) "search the desk" custom
                (mkEntryClock 5 5) (mkEntryClock 7 7) (mkClueClock 7 "")
                eq_refl eq_refl eq_refl) as (_ & _ & Hg & Hl & _).
  split_and!; [reflexivity | reflexivity | reflexivity | | exact Hl].
  change (narrativeHistory (gameState end_of_turn.2)
          = narrativeHistory
              (appendEntry (playerEntry (mkEntryClock 5 5) "search the desk")
                 (gameState w))).
  exact (f_equal narrativeHistory Hg).
Defined.

(** C8 (counterexample).  The guard of [handleAction] tests the busy flag
    its render captured.  While the reply of a first call is pending, a
    second call through the callback of the same idle render is not
    refused: it appends a second player entry and suspends a second
    call. *)
Lemma C8_counterexample :
  let w := set_chatSession (Some (mkChatSession [openingMessage]))
             initialWorld in
  let idle := render w in
  let w1 :=
    handleAction_call idle "search the desk" custom (mkEntryClock 5 5) w in
  let w2 :=
    handleAction_call idle "open the door" custom (mkEntryClock 6 6) w1 in
  isLoading w = false
  ∧ suspended w1 = [mkSuspended FromHandleAction OnService]
  ∧ w2 ≠ w1
  ∧ (NarrativeEntry.text <$> narrativeHistory (gameState w2)
     = ["search the desk"; "open the door"])
  ∧ length (suspended w2) = 2%nat.
Proof.
  cbn zeta. split_and!; [reflexivity | reflexivity | | reflexivity
                         | reflexivity].
  intros H. apply (f_equal (λ x, length (suspended x))) in H.
  discriminate H.
Qed.

(** C8 (amended).  From an idle component, a call of [handleAction]
    appends, before any reply, exactly one entry to the history (speaker
    Alex, type action, the submitted text) and sets the busy flag.  As
    long as the reply has not arrived, whatever else happens, every
    render has the busy flag set, and a further call through the callback
    of a render that has it set changes nothing; the controls call the
    callback of the latest render, so over the event loop a further call
    is a no-op and at most one call is suspended over any run. *)
Theorem C8_one_turn_at_a_time
    (w : World) (text : string) (ty : ActionType) (now : EntryClock) :
  isLoading w = false →
  let w1 := step w (Act text ty now) in
  gameState w1
  = mkGameState (currentLocation (gameState w)) (inventory (gameState w))
      (clues (gameState w))
      (narrativeHistory (gameState w)
       ++ [NarrativeEntry.mk (Number_toString (id_now now)) "Alex" text
             action (timestamp_now now)])
      (phase (gameState w)) (trust (gameState w)) (puzzleActive (gameState w))
  ∧ isLoading w1 = true
  ∧ (∀ events text' ty' now',
       Forall before_reply events →
       let w2 := foldl step w1 events in
       step w2 (Act text' ty' now') = w2 ∧ gameState w2 = gameState w1
       ∧ r_isLoading (render w2) = true
       ∧ ∀ closure,
           r_isLoading closure = true →
           handleAction_call closure text' ty' now' w2 = w2)
  ∧ (∀ created events,
       (length (suspended (run created events)) ≤ 1)%nat).
Proof.
  intros Hidle w1.
  assert (gameState w1 = appendEntry (playerEntry now text) (gameState w)
          ∧ isLoading w1 = true) as [Hg Hbusy].
  { subst w1. simpl. unfold handleAction_call. simpl. rewrite Hidle.
    unfold sendPlayerAction_call. simpl. by destruct (chatSession w). }
  split_and!; [exact Hg | exact Hbusy | |].
  - intros events text' ty' now' Hev w2.
    destruct (steps_stay_busy w1 events Hev Hbusy) as (Hb & Hg2 & _).
    split_and!; [|exact Hg2|exact Hb|].
    + simpl. unfold handleAction_call. simpl. subst w2. by rewrite Hb.
    + intros closure Hclosure. unfold handleAction_call.
      by rewrite Hclosure.
  - intros created events. apply run_one_in_flight.
Qed.

Lemma C8_one_turn_at_a_time_witness :
  let w := set_chatSession (Some (mkChatSession [openingMessage]))
             initialWorld in
  let w1 := step w (Act "search the desk" custom (mkEntryClock 5 5)) in
  isLoading w = false
  ∧ narrativeHistory (gameState w1)
    = [NarrativeEntry.mk "5" "Alex" "search the desk" action 5]
  ∧ step w1 (Act "open the door" custom (mkEntryClock 6 6)) = w1.
Proof.
  intros w w1.
  pose proof (C8_one_turn_at_a_time w "search the desk" custom
                (mkEntryClock 5 5) eq_refl) as (Hg & _ & Hnoop & _).
  split_and!; [reflexivity | |].
  - exact (f_equal narrativeHistory Hg).
  - exact (proj1 (Hnoop [] "open the door" custom (mkEntryClock 6 6)
                    (Forall_nil_2 _))).
Defined.

(** ** Purity of the reducer *)

Section HeapUpdater.
Implicit Types (h : Heap) (s : GameState) (u : Updates).

Lemma assign_fresh (set : GameState → GameState) r o h :
  assignProperty set r (<[r := o]> h) = <[r := set o]> h.
Proof. unfold assignProperty. apply alter_insert_eq. Qed.

Lemma read_other {A : Type} (f : GameState → A) r p o s h :
  r ≠ p → h !! p = Some s → readProperty f p (<[r := o]> h) = Some (f s).
Proof.
  intros Hne Hp. unfold readProperty. by rewrite lookup_insert_ne, Hp.
Qed.

(** The heap updater allocates one object, writes only that object, and
    leaves in it what [stateUpdater] computes from the value of [prev]. *)
Lemma stateUpdater_heap_spec newHistory u now prev h s :
  h !! prev = Some s →
  stateUpdater_heap newHistory u now prev h
  = Some (fresh (dom h),
          <[fresh (dom h) := stateUpdater newHistory u now s]> h).
Proof.
  intros Hprev.
  assert (fresh (dom h) ≠ prev) as Hne.
  { intros Heq. apply (is_fresh (dom h)). rewrite Heq.
    apply elem_of_dom. by eexists. }
  unfold stateUpdater_heap, spreadObject, stateUpdater. rewrite Hprev.
  simpl. rewrite (read_other _ _ _ _ s) by done. simpl.
  rewrite assign_fresh.
  destruct (truthy_string (newLocation u)),
    (truthy_string (itemAdded u)), (truthy_string (itemRemoved u)),
    (clueAdded u); simpl;
    repeat (rewrite ?assign_fresh, ?(read_other _ _ _ _ s) by done; simpl);
    reflexivity.
Qed.
End HeapUpdater.

(** C4 (counterexample).  The same state and the same update, applied at
    two readings of the clock, give two different states: the id and the
    timestamp of the entry are the readings. *)
Lemma C4_counterexample :
  applyUpdate (mkEntryClock 1 1) (mkClueClock 1 "") "Fog." noUpdates
    initialGameState
  ≠ applyUpdate (mkEntryClock 2 2) (mkClueClock 2 "") "Fog." noUpdates
      initialGameState.
Proof. intros H. apply (f_equal narrativeHistory) in H. discriminate H. Qed.

(** C4 (amended).  The reducer is deterministic given the clock readings
    it takes.  The id and the timestamp of the entry it creates are the
    two [Date.now()] readings of the entry, the id and [discoveredAt] of
    a clue it creates are the readings of the clue; so two applications
    to the same state and update give the same state exactly when they
    take the same entry readings and, if a clue is created, the same clue
    readings.  Run on two heaps, on two references that hold
    structurally equal states, with the same update and the same
    readings, the updater returns two objects that both hold
    [applyUpdate] of that state; the object it was given holds afterwards
    what it held before, and no object other than the new one is
    written. *)
Theorem C4_reducer_is_deterministic_given_the_clock
    (h1 h2 : Heap) (p1 p2 : nat) (s : GameState)
    (e : EntryClock) (c : ClueClock) (n : string) (u : Updates) :
  h1 !! p1 = Some s →
  h2 !! p2 = Some s →
  narrativeHistory (applyUpdate e c n u s)
  = (narrativeHistory s
     ++ [NarrativeEntry.mk (Number_toString (id_now e)) "GM" n
           (if truthy_bool (memoryTriggered u) then memory else description)
           (timestamp_now e)])%list
  ∧ clues (applyUpdate e c n u s)
    = (clues s
       ++ match clueAdded u with
          | Some k =>
              [Clue.mk (Number_toString (clue_id_now c)) (ClueAdded.name k)
                 (ClueAdded.description k) (clue_date_iso c)]
          | None => []
          end)%list
  ∧ (∀ e' c',
       applyUpdate e' c' n u s = applyUpdate e c n u s
       ↔ e' = e ∧ (is_Some (clueAdded u) → c' = c))
  ∧ ∃ r1 r2 h1' h2',
      stateUpdater_heap (newHistoryEntry e n u) u c p1 h1 = Some (r1, h1')
      ∧ stateUpdater_heap (newHistoryEntry e n u) u c p2 h2 = Some (r2, h2')
      ∧ h1' !! r1 = Some (applyUpdate e c n u s)
      ∧ h2' !! r2 = Some (applyUpdate e c n u s)
      ∧ h1' !! p1 = Some s
      ∧ h2' !! p2 = Some s
      ∧ ∀ r, r ≠ r1 → h1' !! r = h1 !! r.
Proof.
  intros H1 H2.
  assert (∀ (h : Heap) p, h !! p = Some s → fresh (dom h) ≠ p) as Hfresh.
  { intros h p Hp Heq. apply (is_fresh (dom h)). rewrite Heq.
    apply elem_of_dom. by eexists. }
  split_and!.
  - apply applyUpdate_narrativeHistory.
  - rewrite applyUpdate_clues. by destruct (clueAdded u).
  - intros e' c'. split.
    + intros Heq. split.
      * apply (f_equal narrativeHistory) in Heq.
        rewrite !applyUpdate_narrativeHistory in Heq.
        apply app_inj_tail in Heq as [_ Heq].
        injection Heq as Hid Hts. unfold Number_toString in Hid.
        apply (inj pretty) in Hid. destruct e, e'; simpl in *; congruence.
      * intros [k Hk]. apply (f_equal clues) in Heq.
        rewrite !applyUpdate_clues, Hk in Heq.
        apply app_inj_tail in Heq as [_ Heq].
        injection Heq as Hid Hdate. unfold Number_toString in Hid.
        apply (inj pretty) in Hid. destruct c, c'; simpl in *; congruence.
    + intros [-> Hc]. destruct (clueAdded u) as [k|] eqn:Hk.
      * by rewrite Hc.
      * unfold applyUpdate, stateUpdater. by rewrite Hk.
  - eexists _, _, _, _. split_and!.
    + by apply stateUpdater_heap_spec.
    + by apply stateUpdater_heap_spec.
    + by rewrite lookup_insert_eq.
    + by rewrite lookup_insert_eq.
    + rewrite lookup_insert_ne; [done|]. by apply Hfresh.
    + rewrite lookup_insert_ne; [done|]. by apply Hfresh.
    + intros r Hr. by rewrite lookup_insert_ne.
Qed.

Lemma C4_reducer_is_deterministic_given_the_clock_witness :
  let h1 : Heap := {[ 0%nat := initialGameState ]} in
  let h2 : Heap := {[ 3%nat := initialGameState ]} in
  let e := mkEntryClock 1 1 in
  let c := mkClueClock 1 "" in
  let u := mkUpdates None (Some "Rusty Key") None None None in
  h1 !! 0%nat = Some initialGameState
  ∧ h2 !! 3%nat = Some initialGameState
  ∧ ∃ r1 r2 h1' h2',
      stateUpdater_heap (newHistoryEntry e "A key." u) u c 0%nat h1
      = Some (r1, h1')
      ∧ stateUpdater_heap (newHistoryEntry e "A key." u) u c 3%nat h2
        = Some (r2, h2')
      ∧ h1' !! r1 = Some (applyUpdate e c "A key." u initialGameState)
      ∧ h2' !! r2 = Some (applyUpdate e c "A key." u initialGameState)
      ∧ h1' !! 0%nat = Some initialGameState
      ∧ h2' !! 3%nat = Some initialGameState
      ∧ ∀ r, r ≠ r1 → h1' !! r = h1 !! r.
Proof.
  intros h1 h2 e c u.
  assert (h1 !! 0%nat = Some initialGameState) as H1
    by apply lookup_singleton_eq.
  assert (h2 !! 3%nat = Some initialGameState) as H2
    by apply lookup_singleton_eq.
  split_and!; [exact H1 | exact H2 |].
  exact (proj2 (proj2 (proj2
           (C4_reducer_is_deterministic_given_the_clock h1 h2 0%nat 3%nat
              initialGameState e c "A key." u H1 H2)))).
Defined.

(** ** Scenarios *)

(** A reply carrying one [updateGameState] call. *)
Example end_to_end_turn :
  let call args :=
    GenAI.mkResponse
      (Some [GenAI.mkCandidate
               (Some (GenAI.mkContent
                        (Some [GenAI.mkPart
                                 (Some (GenAI.mkFunctionCall (Some "call-1")
                                          (Some args)
                                          (Some "updateGameState")))
                                 None])))]) in
  let opening := Args.mk "Fog hangs over the platform." None None None None
                   None in
  let find := Args.mk "You find a rusty key." None (Some "Rusty Key") None
                (Some (ClueAdded.mk "Strange Note" "...")) None in
  let before :=
    run true [Settle (Fulfilled (call opening)) (mkEntryClock 1 1)
                (mkClueClock 1 "")] in
  let after :=
    foldl step before
      [Act "search the desk" custom (mkEntryClock 5 5);
       Settle (Fulfilled (call find)) (mkEntryClock 9 9)
         (mkClueClock 9 "2026-01-01T00:00:00.009Z")] in
  currentLocation (gameState before) = "station"
  ∧ inventory (gameState after) = ["Rusty Key"]
  ∧ Clue.name <$> clues (gameState after) = ["Strange Note"]
  ∧ NarrativeEntry.speaker <$> narrativeHistory (gameState after)
    = ["GM"; "Alex"; "GM"]
  ∧ isLoading after = false
  ∧ input after = "".
Proof. cbn zeta. split_and!; reflexivity. Qed.

(** A memory reply marks its entry, raises the overlay and sets the timer
    that clears it. *)
Example memory_flag_turn :
  let response :=
    mkApiResponse "Smoke. A hand in yours."
      (Some (mkUpdates None None None None (Some true))) false None None in
  let shown :=
    (handleApiResponse (mkEntryClock 3 3) (mkClueClock 3 "") response
       initialWorld).2 in
  NarrativeEntry.type <$> narrativeHistory (gameState shown) = [memory]
  ∧ showMemoryOverlay shown = true
  ∧ timeouts shown = [3000]
  ∧ showMemoryOverlay (step shown TimerFires) = false
  ∧ gameState (step shown TimerFires) = gameState shown.
Proof. cbn zeta. split_and!; reflexivity. Qed.

(** * Further properties *)

(** ** The normaliser, case by case *)

Section Normaliser.
Implicit Types (result : GenAI.GenerateContentResponse) (p q : GenAI.Part).
Implicit Types (pre post : list GenAI.Part).

Lemma find_first {A : Type} (f : A → bool) (pre post : list A) (x : A) :
  Forall (λ y, f y = false) pre → f x = true →
  List.find f (pre ++ x :: post) = Some x.
Proof.
  intros Hpre Hx. induction Hpre as [|y pre Hy _ IH]; simpl.
  - by rewrite Hx.
  - by rewrite Hy.
Qed.

Lemma find_nothing {A : Type} (f : A → bool) (l : list A) :
  Forall (λ y, f y = false) l → List.find f l = None.
Proof.
  induction 1 as [|y l Hy _ IH]; simpl; [done|]. by rewrite Hy.
Qed.

Lemma has_functionCall_false q :
  GenAI.functionCall q = None → has_functionCall q = false.
Proof. intros H. unfold has_functionCall. by rewrite H. Qed.

Lemma has_text_false q :
  truthy_string (GenAI.text q) = None → has_text q = false.
Proof. intros H. unfold has_text. by rewrite H. Qed.

Lemma truthy_string_Some (v : option string) (t : string) :
  truthy_string v = Some t → v = Some t ∧ t ≠ "".
Proof.
  destruct v as [s|]; simpl; [|done]. case_decide; [done|].
  intros [= ->]. done.
Qed.

(** [processResponse] reads the reply only through [firstParts]. *)
Lemma processResponse_firstParts result :
  processResponse result
  = match List.find has_functionCall (firstParts result)
            ?. GenAI.functionCall with
    | Some call =>
        match GenAI.args call with
        | None => Throw (cannotRead "narrative")
        | Some a =>
            Normal (mkApiResponse (Args.narrative a) (Some (updatesOf a))
                      false (GenAI.id call) (GenAI.name call))
        end
    | None =>
        match List.find has_text (firstParts result) ?. GenAI.text with
        | Some t => Normal (mkApiResponse t (Some noUpdates) false None None)
        | None =>
            Normal (mkApiResponse "..." (Some noUpdates) false None None)
        end
    end.
Proof.
  unfold processResponse, firstParts.
  by destruct (GenAI.candidates result ?. head ?. GenAI.content
               ?. GenAI.parts).
Qed.
End Normaliser.

(** X1.  The first part of the first candidate that carries a function
    call decides the response, wherever it stands among the parts and
    whatever the call is named: its arguments are copied field by field,
    and the text parts of the reply are not read. *)
Theorem processResponse_first_call_wins
    (result : GenAI.GenerateContentResponse) (pre post : list GenAI.Part)
    (p : GenAI.Part) (call : GenAI.FunctionCall) (a : Args.t) :
  firstParts result = (pre ++ p :: post)%list →
  Forall (λ q, GenAI.functionCall q = None) pre →
  GenAI.functionCall p = Some call →
  GenAI.args call = Some a →
  processResponse result
  = Normal {|
      narrative := Args.narrative a;
      updates := Some {|
        newLocation := Args.newLocation a;
        itemAdded := Args.itemAdded a;
        itemRemoved := Args.itemRemoved a;
        clueAdded := Args.clueAdded a;
        memoryTriggered := Args.memoryTriggered a;
      |};
      error := false;
      toolCallId := GenAI.id call;
      functionName := GenAI.name call;
    |}.
Proof.
  intros Hparts Hpre Hp Ha. rewrite processResponse_firstParts, Hparts.
  rewrite (find_first has_functionCall pre post p).
  - simpl. by rewrite Hp, Ha.
  - eapply Forall_impl; [exact Hpre|]. apply has_functionCall_false.
  - unfold has_functionCall. by rewrite Hp.
Qed.

Lemma processResponse_first_call_wins_witness :
  let a := Args.mk "The door gives way." (Some "forest") None None None None in
  let call := GenAI.mkFunctionCall None (Some a) (Some "anything") in
  let said := GenAI.mkPart None (Some "I will open the door.") in
  let p := GenAI.mkPart (Some call) (Some "ignored") in
  let result :=
    GenAI.mkResponse
      (Some [GenAI.mkCandidate (Some (GenAI.mkContent (Some [said; p])))]) in
  firstParts result = ([said] ++ p :: [])%list
  ∧ Forall (λ q, GenAI.functionCall q = None) [said]
  ∧ GenAI.functionCall p = Some call
  ∧ GenAI.args call = Some a
  ∧ processResponse result
    = Normal (mkApiResponse "The door gives way."
                (Some (mkUpdates (Some "forest") None None None None))
                false None (Some "anything")).
Proof.
  intros a call said p result.
  assert (Forall (λ q, GenAI.functionCall q = None) [said]) as Hpre
    by (apply Forall_singleton; reflexivity).
  split_and!; [reflexivity | exact Hpre | reflexivity | reflexivity |].
  exact (processResponse_first_call_wins result [said] [] p call a
           eq_refl Hpre eq_refl eq_refl).
Defined.

(** X2.  When no part of the first candidate carries a function call, the
    narrative is the text of the first part whose text is non-empty; the
    parts after it are dropped, and the response has an empty [updates]. *)
Theorem processResponse_text_fallback
    (result : GenAI.GenerateContentResponse) (pre post : list GenAI.Part)
    (p : GenAI.Part) (t : string) :
  firstParts result = (pre ++ p :: post)%list →
  Forall (λ q, GenAI.functionCall q = None) (firstParts result) →
  Forall (λ q, truthy_string (GenAI.text q) = None) pre →
  truthy_string (GenAI.text p) = Some t →
  processResponse result
  = Normal (mkApiResponse t (Some noUpdates) false None None).
Proof.
  intros Hparts Hnocall Hpre Ht. rewrite processResponse_firstParts.
  rewrite (find_nothing has_functionCall).
  2:{ eapply Forall_impl; [exact Hnocall|]. apply has_functionCall_false. }
  simpl. rewrite Hparts, (find_first has_text pre post p).
  - simpl. by apply truthy_string_Some in Ht as [-> _].
  - eapply Forall_impl; [exact Hpre|]. apply has_text_false.
  - unfold has_text. by rewrite Ht.
Qed.

Lemma processResponse_text_fallback_witness :
  let blank := GenAI.mkPart None (Some "") in
  let p := GenAI.mkPart None (Some "The fog thickens.") in
  let more := GenAI.mkPart None (Some "A bell rings.") in
  let result :=
    GenAI.mkResponse
      (Some [GenAI.mkCandidate
               (Some (GenAI.mkContent (Some [blank; p; more])))]) in
  firstParts result = ([blank] ++ p :: [more])%list
  ∧ Forall (λ q, GenAI.functionCall q = None) (firstParts result)
  ∧ Forall (λ q, truthy_string (GenAI.text q) = None) [blank]
  ∧ truthy_string (GenAI.text p) = Some "The fog thickens."
  ∧ processResponse result
    = Normal (mkApiResponse "The fog thickens." (Some noUpdates) false
                None None).
Proof.
  intros blank p more result.
  assert (Forall (λ q, GenAI.functionCall q = None) (firstParts result))
    as Hnocall by (repeat constructor).
  assert (Forall (λ q, truthy_string (GenAI.text q) = None) [blank])
    as Hpre by (repeat constructor).
  split_and!; [reflexivity | exact Hnocall | exact Hpre | reflexivity |].
  exact (processResponse_text_fallback result [blank] [more] p
           "The fog thickens." eq_refl Hnocall Hpre eq_refl).
Defined.

(** X3.  A reply whose first candidate has no part with a function call
    or a non-empty text (in particular a reply without candidates,
    content or parts) gives the placeholder narrative with an empty
    [updates]. *)
Theorem processResponse_placeholder
    (result : GenAI.GenerateContentResponse) :
  Forall (λ q, GenAI.functionCall q = None
               ∧ truthy_string (GenAI.text q) = None) (firstParts result) →
  processResponse result
  = Normal (mkApiResponse "..." (Some noUpdates) false None None).
Proof.
  intros Hnone. rewrite processResponse_firstParts.
  rewrite (find_nothing has_functionCall).
  2:{ eapply Forall_impl; [exact Hnone|]. intros q [Hq _].
      by apply has_functionCall_false. }
  simpl. rewrite (find_nothing has_text); [done|].
  eapply Forall_impl; [exact Hnone|]. intros q [_ Hq].
  by apply has_text_false.
Qed.

Lemma processResponse_placeholder_witness :
  let result :=
    GenAI.mkResponse
      (Some [GenAI.mkCandidate
               (Some (GenAI.mkContent (Some [GenAI.mkPart None (Some "")])));
             GenAI.mkCandidate
               (Some (GenAI.mkContent
                        (Some [GenAI.mkPart None (Some "second")])))]) in
  Forall (λ q, GenAI.functionCall q = None
               ∧ truthy_string (GenAI.text q) = None) (firstParts result)
  ∧ processResponse result
    = Normal (mkApiResponse "..." (Some noUpdates) false None None).
Proof.
  intros result.
  assert (Forall (λ q, GenAI.functionCall q = None
                       ∧ truthy_string (GenAI.text q) = None)
            (firstParts result)) as Hnone by (repeat constructor).
  split; [exact Hnone|].
  exact (processResponse_placeholder result Hnone).
Defined.

Section NormaliserTotality.
Implicit Types (result : GenAI.GenerateContentResponse) (r : ApiResponse).

Lemma find_split {A : Type} (f : A → bool) (l : list A) (x : A) :
  List.find f l = Some x →
  ∃ pre post, l = (pre ++ x :: post)%list
              ∧ Forall (λ y, f y = false) pre ∧ f x = true.
Proof.
  induction l as [|y l IH]; simpl; [done|].
  destruct (f y) eqn:Hy.
  - intros [= ->]. by exists [], l.
  - intros (pre & post & -> & Hpre & Hx)%IH.
    exists (y :: pre), post. split_and!; [done| |done]. by constructor.
Qed.

Lemma has_functionCall_true (q : GenAI.Part) :
  has_functionCall q = true → is_Some (GenAI.functionCall q).
Proof. unfold has_functionCall. apply bool_decide_eq_true_1. Qed.

Lemma has_functionCall_false_inv (q : GenAI.Part) :
  has_functionCall q = false → GenAI.functionCall q = None.
Proof.
  unfold has_functionCall. intros H%bool_decide_eq_false_1.
  by apply eq_None_not_Some.
Qed.

(** What [processResponse] returns has [updates] and no [error]. *)
Lemma processResponse_Normal result r :
  processResponse result = Normal r → is_Some (updates r) ∧ error r = false.
Proof.
  rewrite processResponse_firstParts.
  destruct (List.find has_functionCall (firstParts result)
            ?. GenAI.functionCall) as [call|].
  - destruct (GenAI.args call); [|done]. intros [= <-]. by split.
  - destruct (List.find has_text (firstParts result) ?. GenAI.text);
      intros [= <-]; by split.
Qed.

(** [handleApiResponse] on a response with [updates]. *)
Lemma handleApiResponse_with_updates entryNow clueNow r u (w : World) :
  updates r = Some u →
  handleApiResponse entryNow clueNow r w
  = (Normal (),
     let w' :=
       setGameState
         (stateUpdater (newHistoryEntry entryNow (narrative r) u) u clueNow)
         w in
     if truthy_bool (memoryTriggered u)
     then setTimeout 3000 (setShowMemoryOverlay true w')
     else w').
Proof.
  intros Hu. unfold handleApiResponse, read_updates, bind. rewrite Hu.
  simpl. by destruct (truthy_bool (memoryTriggered u)).
Qed.

Lemma settleWith_cases (failure : ApiResponse)
    (outcome : Settled GenAI.GenerateContentResponse) :
  settleWith failure outcome = failure
  ∨ ∃ reply r, outcome = Fulfilled reply ∧ processResponse reply = Normal r
               ∧ settleWith failure outcome = r.
Proof.
  destruct outcome as [reply|]; simpl; [|by left].
  destruct (processResponse reply) as [r|] eqn:Hr; [|by left].
  right. by exists reply, r.
Qed.
End NormaliserTotality.

(** X4.  Whatever [processResponse] returns, [handleApiResponse] accepts:
    the response has no error flag and carries [updates], so the call
    completes and the state becomes the reducer's result. *)
Theorem normalised_response_is_accepted
    (result : GenAI.GenerateContentResponse) (r : ApiResponse) :
  processResponse result = Normal r →
  error r = false
  ∧ ∃ u, updates r = Some u
         ∧ ∀ entryNow clueNow w,
             (handleApiResponse entryNow clueNow r w).1 = Normal ()
             ∧ gameState (handleApiResponse entryNow clueNow r w).2
               = applyUpdate entryNow clueNow (narrative r) u (gameState w).
Proof.
  intros [[u Hu] Herr]%processResponse_Normal. split; [done|].
  exists u. split; [done|]. intros entryNow clueNow w.
  rewrite (handleApiResponse_with_updates _ _ _ u) by done. simpl.
  by destruct (truthy_bool (memoryTriggered u)).
Qed.

Lemma normalised_response_is_accepted_witness :
  let result := GenAI.mkResponse None in
  let r := mkApiResponse "..." (Some noUpdates) false None None in
  processResponse result = Normal r
  ∧ error r = false
  ∧ ∃ u, updates r = Some u
         ∧ ∀ entryNow clueNow w,
             (handleApiResponse entryNow clueNow r w).1 = Normal ()
             ∧ gameState (handleApiResponse entryNow clueNow r w).2
               = applyUpdate entryNow clueNow (narrative r) u (gameState w).
Proof.
  intros result r. split; [reflexivity|].
  exact (normalised_response_is_accepted result r eq_refl).
Defined.

(** X5.  On a reply of the declared shape (a reply object in which every
    property [processResponse] reads is absent or of its declared type,
    as the records of [GenAI] have them), [processResponse] throws
    exactly when the first part of the first candidate that carries a
    function call carries it without [args]; the error is then the read
    of [narrative] on [undefined]. *)
Theorem processResponse_throws_iff
    (result : GenAI.GenerateContentResponse) (e : JsError) :
  processResponse result = Throw e
  ↔ e = cannotRead "narrative"
    ∧ ∃ pre p post call,
        firstParts result = (pre ++ p :: post)%list
        ∧ Forall (λ q, GenAI.functionCall q = None) pre
        ∧ GenAI.functionCall p = Some call
        ∧ GenAI.args call = None.
Proof.
  rewrite processResponse_firstParts. split.
  - destruct (List.find has_functionCall (firstParts result)) as [p|] eqn:Hp;
      simpl.
    + apply find_split in Hp as (pre & post & Hparts & Hpre & Htrue).
      apply has_functionCall_true in Htrue as [call Hcall]. rewrite Hcall.
      destruct (GenAI.args call) eqn:Hargs; [done|]. intros [= <-].
      split; [done|]. exists pre, p, post, call. split_and!; try done.
      eapply Forall_impl; [exact Hpre|]. apply has_functionCall_false_inv.
    + by destruct (List.find has_text (firstParts result) ?. GenAI.text).
  - intros (-> & pre & p & post & call & Hparts & Hpre & Hcall & Hargs).
    rewrite Hparts, (find_first has_functionCall pre post p).
    + simpl. by rewrite Hcall, Hargs.
    + eapply Forall_impl; [exact Hpre|]. apply has_functionCall_false.
    + unfold has_functionCall. by rewrite Hcall.
Qed.

(** X6.  The response [sendPlayerAction] resolves to is either one of its
    two failure objects, with the error flag and without [updates], or a
    response of [processResponse], without the flag and with [updates]:
    the flag is set exactly when [updates] is missing. *)
Theorem sendPlayerAction_flags_what_lacks_updates
    (action : string) (currentState : GameState)
    (outcome : Settled GenAI.GenerateContentResponse) (w : World) :
  let r := (sendPlayerAction action currentState outcome w).1 in
  (r = sessionLost ∨ r = apiError
   ∨ ∃ reply, outcome = Fulfilled reply ∧ processResponse reply = Normal r)
  ∧ (error r = true ↔ updates r = None).
Proof.
  unfold sendPlayerAction, sendPlayerAction_call.
  destruct (chatSession w); simpl.
  - unfold sendPlayerAction_settle.
    destruct (settleWith_cases apiError outcome)
      as [->|(reply & r & -> & Hr & Heq)].
    + split; [by right; left|done].
    + rewrite Heq. split; [right; right; by exists reply|].
      apply processResponse_Normal in Hr as [[u ->] ->]. done.
  - split; [by left|done].
Qed.

(** ** Whole turns *)

Section Turns.
Implicit Types (w : World) (r : ApiResponse).

Lemma handleAction_resume_with_updates entryNow clueNow r u w :
  updates r = Some u →
  handleAction_resume entryNow clueNow r w
  = (Normal (),
     setInput ""
       (setIsLoading false (handleApiResponse entryNow clueNow r w).2)).
Proof.
  intros Hu. unfold handleAction_resume, bind, exec.
  by rewrite (handleApiResponse_with_updates _ _ _ u).
Qed.

Lemma handleAction_resume_without_updates entryNow clueNow r w :
  updates r = None →
  handleAction_resume entryNow clueNow r w
  = (Throw (cannotRead "memoryTriggered"), w).
Proof.
  intros Hu. unfold handleAction_resume, bind.
  by rewrite handleApiResponse_without_updates.
Qed.

Lemma handleApiResponse_cells entryNow clueNow r w :
  let w' := (handleApiResponse entryNow clueNow r w).2 in
  isLoading w' = isLoading w ∧ input w' = input w
  ∧ chatSession w' = chatSession w ∧ isNotebookOpen w' = isNotebookOpen w.
Proof.
  unfold handleApiResponse, read_updates, bind.
  destruct (updates r) as [u|]; simpl; [|done].
  by destruct (truthy_bool (memoryTriggered u)).
Qed.

(** An accepted call of [handleAction], up to its [await]. *)
Lemma step_Act_idle w text ty now :
  isLoading w = false →
  step w (Act text ty now)
  = let w' :=
      setIsLoading true (setGameState (appendEntry (playerEntry now text)) w)
    in
    match chatSession w with
    | Some c =>
        suspend FromHandleAction OnService
          (set_chatSession
             (Some (sendMessage (playerMessage text (gameState w)) c)) w')
    | None => suspend FromHandleAction (Resolved sessionLost) w'
    end.
Proof.
  intros Hidle. simpl. unfold handleAction_call. simpl. rewrite Hidle.
  unfold sendPlayerAction_call. simpl. by destruct (chatSession w).
Qed.

Lemma step_busy_without_call w e :
  isLoading w = true → suspended w = [] →
  isLoading (step w e) = true ∧ suspended (step w e) = []
  ∧ gameState (step w e) = gameState w
  ∧ chatSession (step w e) = chatSession w.
Proof.
  intros Hbusy Hnone. destruct e as [text ty now|outcome en cn| |v|o]; simpl.
  - unfold handleAction_call. simpl. by rewrite Hbusy.
  - unfold resume. by rewrite Hnone.
  - by destruct (timeouts w).
  - done.
  - done.
Qed.
End Turns.

(** X7.  A completed turn.  From an idle component with a session, an
    action whose reply [processResponse] accepts ends with the component
    idle again, the input cleared, one message sent (the context of the
    state the action was submitted in, then the action), and the state
    the reducer gives on the state with the player's entry: the history
    has grown by the player's entry and one GM entry. *)
Theorem completed_turn
    (w : World) (session : ChatSession) (text : string) (ty : ActionType)
    (now entryNow : EntryClock) (clueNow : ClueClock)
    (reply : GenAI.GenerateContentResponse) (r : ApiResponse) (u : Updates) :
  isLoading w = false →
  suspended w = [] →
  chatSession w = Some session →
  processResponse reply = Normal r →
  updates r = Some u →
  let turn :=
    resume (Fulfilled reply) entryNow clueNow (step w (Act text ty now)) in
  turn.1 = Normal ()
  ∧ gameState turn.2
    = applyUpdate entryNow clueNow (narrative r) u
        (appendEntry (playerEntry now text) (gameState w))
  ∧ narrativeHistory (gameState turn.2)
    = (narrativeHistory (gameState w)
       ++ [playerEntry now text;
           newHistoryEntry entryNow (narrative r) u])%list
  ∧ isLoading turn.2 = false
  ∧ input turn.2 = ""
  ∧ suspended turn.2 = []
  ∧ chatSession turn.2
    = Some (mkChatSession
              (sent session ++ [playerMessage text (gameState w)])).
Proof.
  intros Hidle Hnone Hsession Hr Hu turn.
  assert (turn.1 = Normal ()
          ∧ gameState turn.2
            = applyUpdate entryNow clueNow (narrative r) u
                (appendEntry (playerEntry now text) (gameState w))
          ∧ isLoading turn.2 = false ∧ input turn.2 = ""
          ∧ suspended turn.2 = []
          ∧ chatSession turn.2
            = Some (mkChatSession
                      (sent session ++ [playerMessage text (gameState w)])))
    as (H1 & Hg & H3 & H4 & H5 & H6).
  { subst turn. rewrite step_Act_idle by done. rewrite Hsession. cbn zeta.
    unfold resume, suspend. simpl. rewrite Hnone. simpl.
    unfold sendPlayerAction_settle. simpl. rewrite Hr.
    rewrite (handleAction_resume_with_updates _ _ _ u) by done.
    rewrite (handleApiResponse_with_updates _ _ _ u) by done. simpl.
    by destruct (truthy_bool (memoryTriggered u)). }
  split_and!; try done.
  rewrite Hg, applyUpdate_narrativeHistory. simpl.
  by rewrite <- (assoc_L (++)).
Qed.

Lemma completed_turn_witness :
  let w := set_chatSession (Some (mkChatSession [openingMessage]))
             initialWorld in
  let a := Args.mk "You find a rusty key." None (Some "Rusty Key") None None
             None in
  let reply :=
    GenAI.mkResponse
      (Some [GenAI.mkCandidate
               (Some (GenAI.mkContent
                        (Some [GenAI.mkPart
                                 (Some (GenAI.mkFunctionCall None (Some a)
                                          None)) None])))]) in
  let r := mkApiResponse "You find a rusty key." (Some (updatesOf a)) false
             None None in
  let turn :=
    resume (Fulfilled reply) (mkEntryClock 9 9) (mkClueClock 9 "")
      (step w (Act "search the desk" custom (mkEntryClock 5 5))) in
  isLoading w = false
  ∧ suspended w = []
  ∧ chatSession w = Some (mkChatSession [openingMessage])
  ∧ processResponse reply = Normal r
  ∧ updates r = Some (updatesOf a)
  ∧ isLoading turn.2 = false
  ∧ input turn.2 = "".
Proof.
  intros w a reply r turn.
  pose proof (completed_turn w (mkChatSession [openingMessage])
                "search the desk" custom (mkEntryClock 5 5)
                (mkEntryClock 9 9) (mkClueClock 9 "") reply r (updatesOf a)
                eq_refl eq_refl eq_refl eq_refl eq_refl)
    as (_ & _ & _ & Hidle & Hinput & _).
  split_and!; [reflexivity.. | exact Hidle | exact Hinput].
Defined.

(** X8.  A turn returns the component to idle exactly when there is a
    session and the service fulfils the message with a reply that
    [processResponse] accepts.  In every other case (no session, a
    rejection, a call without [args]) the resumed call throws on the
    failure object, the state keeps the player's entry only and the busy
    flag stays set. *)
Theorem turn_returns_to_idle_iff
    (w : World) (text : string) (ty : ActionType)
    (now entryNow : EntryClock) (clueNow : ClueClock)
    (outcome : Settled GenAI.GenerateContentResponse) :
  isLoading w = false →
  suspended w = [] →
  let turn := resume outcome entryNow clueNow (step w (Act text ty now)) in
  (isLoading turn.2 = false
   ↔ is_Some (chatSession w)
     ∧ ∃ reply r, outcome = Fulfilled reply
                  ∧ processResponse reply = Normal r)
  ∧ (isLoading turn.2 = true →
     turn.1 = Throw (cannotRead "memoryTriggered")
     ∧ gameState turn.2 = appendEntry (playerEntry now text) (gameState w)
     ∧ suspended turn.2 = []).
Proof.
  intros Hidle Hnone turn. subst turn.
  rewrite step_Act_idle by done. cbn zeta.
  destruct (chatSession w) as [c|] eqn:Hsession.
  - unfold resume, suspend. simpl. rewrite Hnone. simpl.
    unfold sendPlayerAction_settle.
    destruct (settleWith_cases apiError outcome)
      as [Heq|(reply & r & -> & Hr & ->)].
    + rewrite Heq, handleAction_resume_without_updates by done. simpl.
      split; [|done]. split; [done|].
      intros (_ & reply & r & -> & Hr). simpl in Heq. rewrite Hr in Heq.
      subst r. by apply processResponse_Normal in Hr as [[u [=]] _].
    + pose proof Hr as [[u Hu] _]%processResponse_Normal.
      rewrite (handleAction_resume_with_updates _ _ _ u) by done. simpl.
      split; [|done]. split; [|done]. intros _. split; [done|].
      by exists reply, r.
  - unfold resume, suspend. simpl. rewrite Hnone. simpl.
    split; [|done]. split; [done|]. by intros [[? [=]] _].
Qed.

Lemma turn_returns_to_idle_iff_witness :
  let turn :=
    resume Rejected (mkEntryClock 7 7) (mkClueClock 7 "")
      (step initialWorld (Act "search the desk" custom (mkEntryClock 5 5))) in
  isLoading initialWorld = false
  ∧ suspended initialWorld = []
  ∧ (isLoading turn.2 = true →
     turn.1 = Throw (cannotRead "memoryTriggered")
     ∧ gameState turn.2
       = appendEntry (playerEntry (mkEntryClock 5 5) "search the desk")
           (gameState initialWorld)
     ∧ suspended turn.2 = []).
Proof.
  intros turn. split_and!; [reflexivity | reflexivity |].
  exact (proj2 (turn_returns_to_idle_iff initialWorld "search the desk"
                  custom (mkEntryClock 5 5) (mkEntryClock 7 7)
                  (mkClueClock 7 "") Rejected eq_refl eq_refl)).
Defined.

(** X9.  A component that is busy with no call suspended stays so: no
    sequence of events changes its game state, its session or its busy
    flag, and every further action is refused. *)
Theorem busy_without_call_is_final (w : World) (events : list Event) :
  isLoading w = true →
  suspended w = [] →
  let w' := foldl step w events in
  isLoading w' = true ∧ suspended w' = []
  ∧ gameState w' = gameState w ∧ chatSession w' = chatSession w.
Proof.
  intros Hbusy Hnone. cbn zeta. revert w Hbusy Hnone.
  induction events as [|e events IH]; intros w Hbusy Hnone; simpl; [done|].
  destruct (step_busy_without_call w e Hbusy Hnone) as (Hb & Hn & Hg & Hc).
  destruct (IH _ Hb Hn) as (? & ? & ? & ?). split_and!; congruence.
Qed.

Lemma busy_without_call_is_final_witness :
  let w :=
    (resume Rejected (mkEntryClock 7 7) (mkClueClock 7 "")
       (step initialWorld
          (Act "search the desk" custom (mkEntryClock 5 5)))).2 in
  let events :=
    [Act "try again" custom (mkEntryClock 8 8);
     Settle Rejected (mkEntryClock 9 9) (mkClueClock 9 "");
     Typing "hello"; TimerFires] in
  isLoading w = true
  ∧ suspended w = []
  ∧ gameState (foldl step w events) = gameState w.
Proof.
  intros w events. split_and!; [reflexivity | reflexivity |].
  exact (proj1 (proj2 (proj2 (busy_without_call_is_final w events
                                eq_refl eq_refl)))).
Defined.

(** ** What an event can do *)

Section Effects.
Implicit Types (w : World) (s : GameState) (r : ApiResponse).

Lemma handleApiResponse_effect entryNow clueNow r w :
  let w' := (handleApiResponse entryNow clueNow r w).2 in
  game_effect entryNow clueNow (gameState w) (gameState w')
  ∧ overlay_effect w w'.
Proof.
  cbn zeta. destruct (updates r) as [u|] eqn:Hu.
  - rewrite (handleApiResponse_with_updates _ _ _ u) by done. simpl.
    destruct (truthy_bool (memoryTriggered u)); simpl.
    + split; [right; right; by eexists _, _|by right].
    + split; [right; right; by eexists _, _|by left].
  - rewrite handleApiResponse_without_updates by done. simpl.
    split; by left.
Qed.

Lemma handleAction_resume_effect entryNow clueNow r w :
  let w' := (handleAction_resume entryNow clueNow r w).2 in
  game_effect entryNow clueNow (gameState w) (gameState w')
  ∧ overlay_effect w w' ∧ chatSession w' = chatSession w.
Proof.
  cbn zeta.
  pose proof (handleApiResponse_effect entryNow clueNow r w) as [Hg Ho].
  pose proof (handleApiResponse_cells entryNow clueNow r w) as (_ & _ & Hc & _).
  unfold handleAction_resume, bind, exec.
  by destruct (handleApiResponse entryNow clueNow r w) as [[[]|] w'].
Qed.

Lemma start_resume_effect entryNow clueNow r w :
  let w' := (start_resume entryNow clueNow r w).2 in
  game_effect entryNow clueNow (gameState w) (gameState w')
  ∧ overlay_effect w w' ∧ chatSession w' = chatSession w.
Proof.
  cbn zeta.
  pose proof (handleApiResponse_effect entryNow clueNow r w) as [Hg Ho].
  pose proof (handleApiResponse_cells entryNow clueNow r w) as (_ & _ & Hc & _).
  unfold start_resume, bind, exec. destruct (error r); simpl.
  - split_and!; [right; by left|by left|done].
  - by destruct (handleApiResponse entryNow clueNow r w) as [[[]|] w'].
Qed.

Lemma resume_effect outcome entryNow clueNow w :
  let w' := (resume outcome entryNow clueNow w).2 in
  game_effect entryNow clueNow (gameState w) (gameState w')
  ∧ overlay_effect w w' ∧ chatSession w' = chatSession w.
Proof.
  cbn zeta. unfold resume. destruct (suspended w) as [|x rest].
  - simpl. split_and!; [by left|by left|done].
  - destruct (caller x).
    + apply (start_resume_effect _ _ _ (set_suspended rest w)).
    + apply (handleAction_resume_effect _ _ _ (set_suspended rest w)).
Qed.

Lemma extends_refl s : extends s s.
Proof. by split. Qed.

Lemma extends_trans s1 s2 s3 : extends s1 s2 → extends s2 s3 → extends s1 s3.
Proof. intros [? ?] [? ?]. split; by etrans. Qed.

Lemma game_effect_extends entryNow clueNow s s' :
  game_effect entryNow clueNow s s' → extends s s'.
Proof.
  intros [->|[->|(n & u & ->)]].
  - apply extends_refl.
  - split; [by eexists|done].
  - split.
    + rewrite applyUpdate_narrativeHistory. by eexists.
    + rewrite applyUpdate_clues. by eexists.
Qed.

Lemma step_extends w e : extends (gameState w) (gameState (step w e)).
Proof.
  destruct e as [text ty now|outcome en cn| |v|o]; simpl.
  - unfold handleAction_call. simpl.
    destruct (isLoading w); [apply extends_refl|].
    unfold sendPlayerAction_call. simpl.
    destruct (chatSession w); simpl; (split; [by eexists|done]).
  - eapply game_effect_extends. apply resume_effect.
  - destruct (timeouts w); apply extends_refl.
  - apply extends_refl.
  - apply extends_refl.
Qed.

Lemma step_overlay_has_timer w e :
  overlay_has_timer w → overlay_has_timer (step w e).
Proof.
  intros [Hshown Hdelays].
  destruct e as [text ty now|outcome en cn| |v|o]; simpl.
  - unfold handleAction_call. simpl. destruct (isLoading w); [done|].
    unfold sendPlayerAction_call. simpl. by destruct (chatSession w).
  - destruct (resume_effect outcome en cn w) as (_ & [[Ho Ht]|[Ho Ht]] & _);
      unfold overlay_has_timer; rewrite Ho, Ht.
    + done.
    + split; [by destruct (timeouts w)|].
      apply Forall_app. split; [done|]. by apply Forall_singleton.
  - destruct (timeouts w) as [|d rest] eqn:Ht.
    + split; rewrite ?Ht in *; done.
    + split; [done|]. simpl. by apply Forall_cons in Hdelays as [_ ?].
  - by split.
  - by split.
Qed.
End Effects.

(** X10.  The history and the clues are append-only over the event loop:
    whatever the events, the entries and clues a state holds are still
    there afterwards, unchanged and in the same positions. *)
Theorem history_and_clues_are_append_only (w : World) (events : list Event) :
  narrativeHistory (gameState w)
    `prefix_of` narrativeHistory (gameState (foldl step w events))
  ∧ clues (gameState w) `prefix_of` clues (gameState (foldl step w events)).
Proof.
  change (extends (gameState w) (gameState (foldl step w events))).
  revert w. induction events as [|e events IH]; intros w; simpl.
  - apply extends_refl.
  - eapply extends_trans; [apply step_extends|apply IH].
Qed.

(** X11.  Over every run, while the memory overlay shows, a timer that
    will clear it is pending, and every pending timer has the delay of
    3000 ms: the overlay cannot stay up for lack of a timer. *)
Theorem overlay_always_has_its_timer (created : bool) (events : list Event) :
  let w := run created events in
  (showMemoryOverlay w = true → timeouts w ≠ [])
  ∧ Forall (λ delay, delay = 3000) (timeouts w).
Proof.
  cbn zeta. change (overlay_has_timer (run created events)). unfold run.
  assert (overlay_has_timer (start_call created initialWorld)) as H0
    by (by destruct created).
  revert H0. generalize (start_call created initialWorld) as w.
  induction events as [|e events IH]; intros w Hw; simpl; [done|].
  apply IH, step_overlay_has_timer, Hw.
Qed.

(** ** Initialisation and the session *)

Section Session.
Implicit Types (w : World) (s : GameState).

Lemma step_without_session w e : without_session w → without_session (step w e).
Proof.
  intros (Hc & Hloc & Hinv & Hcl & Hstage). unfold without_session.
  destruct e as [text ty now|outcome en cn| |v|o]; simpl.
  - unfold handleAction_call. simpl.
    destruct Hstage as [(Hl & Hs & Hh)|[(Hl & Hs & Hh)|[(Hl & Hs & Hh)|
                          (Hl & Hs & Hh)]]]; rewrite Hl;
      try (split_and!; [done..|]; by eauto 10).
    unfold sendPlayerAction_call. simpl. rewrite Hc. simpl.
    split_and!; [done..|]. right; right; left. rewrite Hs, length_app, Hh.
    done.
  - unfold resume.
    destruct Hstage as [(Hl & Hs & Hh)|[(Hl & Hs & Hh)|[(Hl & Hs & Hh)|
                          (Hl & Hs & Hh)]]]; rewrite Hs; simpl;
      try (split_and!; [done..|]; by eauto 10).
    split_and!; [done..|]. right; left. by rewrite Hh.
  - destruct (timeouts w); simpl; (split_and!; [done..|]; exact Hstage).
  - split_and!; [done..|]. exact Hstage.
  - split_and!; [done..|]. exact Hstage.
Qed.

Lemma playerEntries_appendEntry (e : NarrativeEntry.t) s :
  playerEntries (appendEntry e s)
  = (playerEntries s
     ++ if decide (NarrativeEntry.speaker e = "Alex") then [e] else [])%list.
Proof.
  unfold playerEntries, appendEntry. simpl. by rewrite filter_app.
Qed.

Lemma playerEntries_game_effect entryNow clueNow s s' :
  game_effect entryNow clueNow s s' → playerEntries s' = playerEntries s.
Proof.
  intros [->|[->|(n & u & ->)]]; [done| |].
  - rewrite playerEntries_appendEntry. simpl. by rewrite app_nil_r.
  - unfold playerEntries. rewrite applyUpdate_narrativeHistory, filter_app.
    by rewrite app_nil_r.
Qed.

Lemma step_sent_matches_history w e :
  sent_matches_history w → sent_matches_history (step w e).
Proof.
  intros (c & Hc & Hlen). unfold sent_matches_history.
  destruct e as [text ty now|outcome en cn| |v|o]; simpl.
  - unfold handleAction_call. simpl. destruct (isLoading w); [by eauto|].
    unfold sendPlayerAction_call. simpl. rewrite Hc. simpl.
    eexists. split; [done|]. simpl.
    change (mkGameState _ _ _ _ _ _ _)
      with (appendEntry (playerEntry now text) (gameState w)).
    rewrite playerEntries_appendEntry, !length_app. simpl. lia.
  - destruct (resume_effect outcome en cn w) as (Hg & _ & Hs).
    rewrite Hs, (playerEntries_game_effect _ _ _ _ Hg). by eauto.
  - destruct (timeouts w); by eauto.
  - by eauto.
  - by eauto.
Qed.
End Session.

(** X12.  When [ai.chats.create] throws, [chatSession] stays [null] for
    good: over every run no session appears, the player never leaves the
    station and never holds an item or a clue, and the history never has
    more than two entries (the system entry and the first action, after
    which the component is busy for ever). *)
Theorem no_session_no_story (events : list Event) :
  let w := run false events in
  chatSession w = None
  ∧ currentLocation (gameState w) = "station"
  ∧ inventory (gameState w) = []
  ∧ clues (gameState w) = []
  ∧ (length (narrativeHistory (gameState w)) ≤ 2)%nat.
Proof.
  cbn zeta.
  assert (without_session (run false events)) as (? & ? & ? & ? & Hstage).
  { unfold run.
    assert (without_session (start_call false initialWorld)) as H0.
    { split_and!; [done..|]. by left. }
    revert H0. generalize (start_call false initialWorld) as w.
    induction events as [|e events IH]; intros w Hw; simpl; [done|].
    apply IH, step_without_session, Hw. }
  split_and!; [done..|].
  destruct Hstage as [(_ & _ & Hh)|[(_ & _ & Hh)|[(_ & _ & Hh)|
                        (_ & _ & Hh)]]]; rewrite Hh; simpl; lia.
Qed.

(** X13.  Initialisation always returns the component to idle with exactly
    one entry in the history.  When a session was created and
    [processResponse] accepts the reply to the opening message, the state
    is the reducer's result on the initial state and the entry is its GM
    entry; when the session could not be created, the message was
    rejected or [processResponse] threw, the entry is the system entry
    and nothing else changes.  A session that was created stays in place,
    with the opening message sent, also when that message was
    rejected. *)
Theorem initialisation_returns_to_idle
    (created : bool) (outcome : Settled GenAI.GenerateContentResponse)
    (entryNow : EntryClock) (clueNow : ClueClock) :
  let w := run created [Settle outcome entryNow clueNow] in
  isLoading w = false
  ∧ suspended w = []
  ∧ chatSession w
    = (if created then Some (mkChatSession [openingMessage]) else None)
  ∧ (∀ reply r u,
       created = true → outcome = Fulfilled reply →
       processResponse reply = Normal r → updates r = Some u →
       gameState w
       = applyUpdate entryNow clueNow (narrative r) u initialGameState
       ∧ narrativeHistory (gameState w)
         = [newHistoryEntry entryNow (narrative r) u])
  ∧ (created = false ∨ outcome = Rejected
     ∨ (∃ reply e, outcome = Fulfilled reply
                   ∧ processResponse reply = Throw e) →
     gameState w = appendEntry (systemEntry entryNow) initialGameState)
  ∧ length (narrativeHistory (gameState w)) = 1%nat.
Proof.
  cbn zeta. destruct created.
  - unfold run. simpl. unfold resume. simpl. unfold initializeGame_settle.
    destruct outcome as [reply|]; simpl.
    + destruct (processResponse reply) as [r|err] eqn:Hr.
      * pose proof Hr as [[u Hu] Herr]%processResponse_Normal.
        unfold start_resume, bind, exec. rewrite Herr.
        rewrite (handleApiResponse_with_updates _ _ _ u) by done. simpl.
        assert (∀ x : GameState,
                  x = applyUpdate entryNow clueNow (narrative r) u
                        initialGameState →
                  (∀ reply0 r0 u0,
                     true = true → Fulfilled reply = Fulfilled reply0 →
                     processResponse reply0 = Normal r0 →
                     updates r0 = Some u0 →
                     x = applyUpdate entryNow clueNow (narrative r0) u0
                           initialGameState
                     ∧ narrativeHistory x
                       = [newHistoryEntry entryNow (narrative r0) u0])
                  ∧ (true = false ∨ Fulfilled reply = Rejected
                     ∨ (∃ reply0 e, Fulfilled reply = Fulfilled reply0
                                    ∧ processResponse reply0 = Throw e) →
                     x = appendEntry (systemEntry entryNow) initialGameState)
                  ∧ length (narrativeHistory x) = 1%nat) as Hcases.
        { intros x ->. split_and!.
          - intros reply0 r0 u0 _ [= <-] Hr0 Hu0.
            rewrite Hr in Hr0. injection Hr0 as <-.
            rewrite Hu in Hu0. injection Hu0 as <-.
            by rewrite applyUpdate_narrativeHistory.
          - intros [[=]|[[=]|(reply0 & e & [= <-] & He)]]. congruence.
          - by rewrite applyUpdate_narrativeHistory. }
        destruct (Hcases _ eq_refl) as (Ha & Hb & Hc).
        destruct (truthy_bool (memoryTriggered u)); simpl;
          (split_and!; [done | done | done | exact Ha | exact Hb | exact Hc]).
      * simpl. split_and!; [done | done | done | | done | done].
        intros reply0 r0 u0 _ [= <-] Hr0. congruence.
    + split_and!; [done | done | done | | done | done].
      by intros reply r u _ [=].
  - split_and!; [done | done | done | | done | done].
    by intros reply r u [=].
Qed.

(** X14.  With a session from initialisation, over every run the session
    stays and exactly one message has been sent for the opening and one
    for each player entry in the history: an action that is shown was
    sent, and a refused action sends nothing. *)
Theorem one_message_per_player_entry (events : list Event) :
  let w := run true events in
  ∃ session,
    chatSession w = Some session
    ∧ length (sent session) = S (length (playerEntries (gameState w))).
Proof.
  cbn zeta. change (sent_matches_history (run true events)). unfold run.
  assert (sent_matches_history (start_call true initialWorld)) as H0
    by (by eexists).
  revert H0. generalize (start_call true initialWorld) as w.
  induction events as [|e events IH]; intros w Hw; simpl; [done|].
  apply IH, step_sent_matches_history, Hw.
Qed.

(** ** The reducer on the inventory and the history *)

Section Inventory.
Implicit Types (l : list string) (x : string).

Lemma filter_ne_absent x l : x ∉ l → filter (λ i, i ≠ x) l = l.
Proof.
  induction l as [|y l IH]; intros Hx; [done|].
  apply not_elem_of_cons in Hx as [Hne Hx].
  rewrite filter_cons, decide_True by done. by rewrite IH.
Qed.

Lemma JSSet_of_list_snoc l x :
  NoDup l → JSSet.of_list (l ++ [x]) = JSSet.add l x.
Proof.
  intros Hl. unfold JSSet.of_list. rewrite foldl_app. simpl.
  f_equal. by apply JSSet_of_list_id.
Qed.

Lemma truthy_string_idemp (v : option string) :
  truthy_string (truthy_string v) = truthy_string v.
Proof.
  destruct v as [s|]; simpl; [|done].
  case_decide as Hs; simpl; [done|]. by rewrite decide_False.
Qed.
End Inventory.

(** X15.  A removal leaves exactly the items held before that differ from
    the removed name, each as often as before and in their order (the
    inventory is the old one filtered): every occurrence of the name is
    gone (also one added by the same update), and removing a name that is
    not held leaves the inventory as it was. *)
Theorem removal_removes_every_occurrence
    (e : EntryClock) (c : ClueClock) (n : string) (u : Updates)
    (prev : GameState) (removed : string) :
  truthy_string (itemRemoved u) = Some removed →
  let after := inventory (applyUpdate e c n u prev) in
  after = filter (λ i, i ≠ removed) (inventory prev)
  ∧ (∀ i, i ∈ after ↔ i ∈ inventory prev ∧ i ≠ removed)
  ∧ after `sublist_of` inventory prev
  ∧ (removed ∉ inventory prev → after = inventory prev).
Proof.
  intros Hr after. subst after. rewrite applyUpdate_inventory, Hr.
  split_and!.
  - done.
  - intros i. rewrite list_elem_of_filter. tauto.
  - apply sublist_filter.
  - apply filter_ne_absent.
Qed.

Lemma removal_removes_every_occurrence_witness :
  let prev :=
    with_inventory ["Coin"; "Lantern"; "Lantern"; "Coin"] initialGameState in
  let u := mkUpdates None (Some "Coin") (Some "Coin") None None in
  truthy_string (itemRemoved u) = Some "Coin"
  ∧ inventory (applyUpdate (mkEntryClock 1 1) (mkClueClock 1 "") "Gone." u
                 prev)
      `sublist_of` inventory prev
  ∧ inventory (applyUpdate (mkEntryClock 1 1) (mkClueClock 1 "") "Gone." u
                 prev) = ["Lantern"; "Lantern"].
Proof.
  intros prev u. split_and!; [reflexivity | | reflexivity].
  exact (proj1 (proj2 (proj2 (removal_removes_every_occurrence
                                (mkEntryClock 1 1) (mkClueClock 1 "") "Gone."
                                u prev "Coin" eq_refl)))).
Defined.

(** X16.  On a duplicate-free inventory, an update that adds an item and
    removes nothing keeps the items held in their order: an item already
    held changes nothing, a new one goes to the end. *)
Theorem add_keeps_insertion_order
    (e : EntryClock) (c : ClueClock) (n : string) (u : Updates)
    (prev : GameState) (added : string) :
  truthy_string (itemAdded u) = Some added →
  truthy_string (itemRemoved u) = None →
  NoDup (inventory prev) →
  inventory (applyUpdate e c n u prev)
  = if decide (added ∈ inventory prev)
    then inventory prev
    else (inventory prev ++ [added])%list.
Proof.
  intros Ha Hr Hprev. rewrite applyUpdate_inventory, Hr, Ha.
  by rewrite JSSet_of_list_snoc.
Qed.

Lemma add_keeps_insertion_order_witness :
  let prev := with_inventory ["Lantern"; "Coin"] initialGameState in
  let u := mkUpdates None (Some "Rusty Key") None None None in
  truthy_string (itemAdded u) = Some "Rusty Key"
  ∧ truthy_string (itemRemoved u) = None
  ∧ NoDup (inventory prev)
  ∧ inventory (applyUpdate (mkEntryClock 1 1) (mkClueClock 1 "") "A key." u
                 prev)
    = ["Lantern"; "Coin"; "Rusty Key"].
Proof.
  intros prev u.
  assert (NoDup (inventory prev)) as Hprev.
  { simpl. apply NoDup_cons. split.
    - intros H. apply elem_of_cons in H as [H|H]; [discriminate|].
      by apply elem_of_nil in H.
    - apply NoDup_singleton. }
  split_and!; [reflexivity | reflexivity | exact Hprev |].
  exact (add_keeps_insertion_order (mkEntryClock 1 1) (mkClueClock 1 "")
           "A key." u prev "Rusty Key" eq_refl eq_refl Hprev).
Defined.

(** X17.  The reducer sees an update only through the truthiness of its
    fields: an empty string in [newLocation], [itemAdded] or
    [itemRemoved] and a [false] in [memoryTriggered] have the effect of
    an absent field. *)
Theorem explicitly_empty_is_absent
    (e : EntryClock) (c : ClueClock) (n : string) (u : Updates)
    (s : GameState) :
  applyUpdate e c n u s
  = applyUpdate e c n
      (mkUpdates (truthy_string (newLocation u))
         (truthy_string (itemAdded u)) (truthy_string (itemRemoved u))
         (clueAdded u)
         (if truthy_bool (memoryTriggered u) then Some true else None))
      s.
Proof.
  unfold applyUpdate, stateUpdater, newHistoryEntry. simpl.
  rewrite !truthy_string_idemp.
  by destruct (truthy_bool (memoryTriggered u)).
Qed.

(** X18.  Every applied update appends exactly one GM entry to the
    history, whatever it contains, and nothing else: after a sequence of
    updates the history is the old one followed by their entries in
    order. *)
Theorem one_GM_entry_per_update (turns : list Applied) (s : GameState) :
  narrativeHistory (applyAll turns s)
  = (narrativeHistory s
     ++ ((λ t, newHistoryEntry (a_entryNow t) (a_narrative t) (a_updates t))
           <$> turns))%list
  ∧ length (narrativeHistory (applyAll turns s))
    = (length (narrativeHistory s) + length turns)%nat.
Proof.
  assert (narrativeHistory (applyAll turns s)
          = (narrativeHistory s
             ++ ((λ t, newHistoryEntry (a_entryNow t) (a_narrative t)
                         (a_updates t)) <$> turns))%list) as Heq.
  { unfold applyAll. revert s.
    induction turns as [|t turns IH]; intros s; simpl.
    - by rewrite app_nil_r.
    - rewrite IH. unfold applyOne at 1.
      by rewrite applyUpdate_narrativeHistory, <- (assoc_L (++)). }
  split; [exact Heq|]. by rewrite Heq, length_app, length_fmap.
Qed.

(** X19.  Each part of the state follows its own fields of the update:
    the inventory after a merge depends on [itemAdded] and [itemRemoved]
    only, the clues on [clueAdded] and the clock only, the location on
    [newLocation] only; the narrative, the memory flag and the other
    fields have no influence on them. *)
Theorem fields_follow_their_own_update
    (e e' : EntryClock) (c c' : ClueClock) (n n' : string)
    (l l' a a' r r' : option string) (k k' : option ClueAdded.t)
    (m m' : option bool) (s : GameState) :
  inventory (applyUpdate e c n (mkUpdates l a r k m) s)
  = inventory (applyUpdate e' c' n' (mkUpdates l' a r k' m') s)
  ∧ clues (applyUpdate e c n (mkUpdates l a r k m) s)
    = clues (applyUpdate e' c n' (mkUpdates l' a' r' k m') s)
  ∧ currentLocation (applyUpdate e c n (mkUpdates l a r k m) s)
    = currentLocation (applyUpdate e' c' n' (mkUpdates l a' r' k' m') s).
Proof.
  by rewrite !applyUpdate_inventory, !applyUpdate_clues,
       !applyUpdate_currentLocation.
Qed.

(** X20.  The guard of [handleAction] tests the [isLoading] captured by
    the render that created the callback.  Called twice from the same
    idle render, the callback submits twice: both player entries are
    appended and two calls are suspended, although the busy flag was set
    by the first call. *)
Theorem stale_closure_submits_again
    (w : World) (text text' : string) (ty ty' : ActionType)
    (now now' : EntryClock) :
  isLoading w = false →
  suspended w = [] →
  let closure := render w in
  let w1 := handleAction_call closure text ty now w in
  let w2 := handleAction_call closure text' ty' now' w1 in
  isLoading w1 = true
  ∧ narrativeHistory (gameState w2)
    = (narrativeHistory (gameState w)
       ++ [playerEntry now text; playerEntry now' text'])%list
  ∧ length (suspended w2) = 2%nat.
Proof.
  intros Hidle Hnone closure w1 w2. subst closure w1 w2.
  unfold handleAction_call. simpl. rewrite Hidle.
  unfold sendPlayerAction_call. simpl.
  destruct (chatSession w) eqn:Hsession; simpl; rewrite ?Hsession; simpl;
    rewrite Hnone, <- (assoc_L (++)); done.
Qed.

Lemma stale_closure_submits_again_witness :
  let closure := render initialWorld in
  let w1 :=
    handleAction_call closure "search the desk" custom (mkEntryClock 5 5)
      initialWorld in
  let w2 :=
    handleAction_call closure "open the door" custom (mkEntryClock 6 6) w1 in
  isLoading initialWorld = false
  ∧ suspended initialWorld = []
  ∧ isLoading w1 = true
  ∧ length (suspended w2) = 2%nat.
Proof.
  intros closure w1 w2.
  pose proof (stale_closure_submits_again initialWorld "search the desk"
                "open the door" custom custom (mkEntryClock 5 5)
                (mkEntryClock 6 6) eq_refl eq_refl) as (Hb & _ & Hs).
  split_and!; [reflexivity | reflexivity | exact Hb | exact Hs].
Defined.
